(** * ImageToAscii: luminance sampling and character mapping

    A shallow embedding of the conversion core of [main.cpp] (the variant
    with [Quad] regions, [-W]/[-H] grid sizes and the font ratio):
    [luma], [perceived_luma_fast], [perceived_luma], [average_luma],
    [doAsciiConversion] and the column/row normalisation of [main].

    The program computes with C++ [double]s.  Every function below is
    written once, over an interface [Double] of the operations the source
    applies to doubles, and is run on two instances:

    - [IEEE_double]: Rocq's primitive binary64 floats, the arithmetic the
      compiled program performs (round to nearest even, evaluated
      operation by operation, no fused multiply-add); executable;
    - [Exact_double]: the real numbers, i.e. the same program text with
      rounding left out.

    Statements proved for every instance hold of both.  Statements about
    arithmetic are proved on [Exact_double]; concrete runs are evaluated on
    [IEEE_double].

    Further parts of the program follow the conversion core: [clamp]; the
    command line of that variant, [parse_arg] and
    [parse_command_line_args], with [std::stoi], [std::stoull] and
    [strtok] written out; and, in the module [FixedBlock], the earlier
    program of [src/main.cpp], with its block average, its loops on [int]
    and its own command line. *)

From Stdlib Require Import ZArith List Bool String Ascii Lia.
From Stdlib Require Import Floats QArith Qabs Qround.
From Stdlib Require Import Reals Lra.
Import ListNotations.

Close Scope Q_scope.

Set Implicit Arguments.

(** ** Outcomes of a run *)

(** A C++ computation either completes, or has undefined behaviour (a
    floating value converted to an integer type that cannot hold it, a read
    outside the pixel buffer), or is cut off because the loop budget of the
    model is spent. *)
Inductive outcome (A : Type) : Type :=
| Done (a : A)
| Undefined
| OutOfFuel.

Arguments Done {A} a.
Arguments Undefined {A}.
Arguments OutOfFuel {A}.

Definition bind {A B : Type} (c : outcome A) (k : A -> outcome B) : outcome B :=
  match c with
  | Done a => k a
  | Undefined => Undefined
  | OutOfFuel => OutOfFuel
  end.

Notation "x <- c ;; k" := (bind c (fun x => k))
  (at level 61, c at next level, right associativity).

Definition of_option {A : Type} (o : option A) : outcome A :=
  match o with
  | Some a => Done a
  | None => Undefined
  end.

(** ** The arithmetic of [double] *)

Declare Scope dbl_scope.
Delimit Scope dbl_scope with dbl.

Class Double (D : Type) : Type := {
  of_int : Z -> D;          (* static_cast<double>(n), n of an integer type *)
  dadd : D -> D -> D;
  dsub : D -> D -> D;
  dmul : D -> D -> D;
  ddiv : D -> D -> D;
  dsqrt : D -> D;
  dlt : D -> D -> bool;     (* x < y *)
  deq : D -> D -> bool;     (* x == y *)
  dtrunc : D -> option Z    (* the value with its fractional part discarded;
                               None when there is none (NaN, infinities) *)
}.

Infix "+" := dadd : dbl_scope.
Infix "-" := dsub : dbl_scope.
Infix "*" := dmul : dbl_scope.
Infix "/" := ddiv : dbl_scope.
Infix "<?" := dlt : dbl_scope.
Infix "=?" := deq : dbl_scope.

(** *** IEEE 754 binary64 *)

Definition float_of_Z (z : Z) : float :=
  SF2Prim (binary_normalize prec emax z 0 false).

Definition float_trunc (x : float) : option Z :=
  match Prim2SF x with
  | S754_zero _ => Some 0%Z
  | S754_finite s m e =>
      let a := Z.shiftl (Zpos m) e in
      Some (if s then (- a)%Z else a)
  | S754_infinity _ => None
  | S754_nan => None
  end.

#[export] Instance IEEE_double : Double float := {|
  of_int := float_of_Z;
  dadd := PrimFloat.add;
  dsub := PrimFloat.sub;
  dmul := PrimFloat.mul;
  ddiv := PrimFloat.div;
  dsqrt := PrimFloat.sqrt;
  dlt := PrimFloat.ltb;
  deq := PrimFloat.eqb;
  dtrunc := float_trunc
|}.

(** *** Exact arithmetic *)

Definition R_trunc (x : R) : Z :=
  if Rle_dec 0 x then Zfloor x else Zceil x.

Definition R_ltb (x y : R) : bool := if Rlt_dec x y then true else false.
Definition R_eqb (x y : R) : bool := if Req_dec_T x y then true else false.

#[export] Instance Exact_double : Double R := {|
  of_int := IZR;
  dadd := Rplus;
  dsub := Rminus;
  dmul := Rmult;
  ddiv := Rdiv;
  dsqrt := sqrt;
  dlt := R_ltb;
  deq := R_eqb;
  dtrunc := fun x => Some (R_trunc x)
|}.

(** ** Integer types *)

Definition SIZE_MAX : Z := 2 ^ 64 - 1.
Definition UINT32_MAX : Z := 2 ^ 32 - 1.   (* the source's [-1U] *)

(** Unsigned arithmetic wraps around. *)
Definition wrap_size_t (z : Z) : Z := z mod 2 ^ 64.
Definition wrap_uint32 (z : Z) : Z := z mod 2 ^ 32.

Section Conversions.
Context {D : Type} `{Double D}.

(** [static_cast<size_t>(x)] and [static_cast<uint32_t>(x)] of a double:
    the value is truncated toward zero, and the behaviour is undefined
    when the truncated value does not fit the destination type. *)
Definition to_size_t (x : D) : outcome Z :=
  match dtrunc x with
  | Some t => if ((0 <=? t) && (t <=? SIZE_MAX))%Z then Done t else Undefined
  | None => Undefined
  end.

Definition to_uint32 (x : D) : outcome Z :=
  match dtrunc x with
  | Some t => if ((0 <=? t) && (t <=? UINT32_MAX))%Z then Done t else Undefined
  | None => Undefined
  end.

(** A decimal literal [n/d] of the source: the double nearest to it. *)
Definition dlit (n d : Z) : D := (of_int n / of_int d)%dbl.
End Conversions.

(** ** Constants and data *)

Definition dquote : ascii := ascii_of_nat 34.
Definition space : ascii := ascii_of_nat 32.
Definition newline : ascii := ascii_of_nat 10.

(** The source literal escapes the backslash and the double quote. *)
Definition DENSITY : string :=
  "@QB#NgWM8RDHdOKq9$6khEPXwmeZaoS2yjufF]}{tx1zv7lciL/\|?*>r^;:_"
  ++ String dquote "~,'.-`".

Definition DENSITY_size : Z := Z.of_nat (String.length DENSITY).

Record Color : Type := {
  red : Z;      (* uint8_t *)
  green : Z;
  blue : Z
}.

Definition uint8 (z : Z) : Prop := (0 <= z <= 255)%Z.
Definition Color_ok (c : Color) : Prop :=
  uint8 (red c) /\ uint8 (green c) /\ uint8 (blue c).

Record Quad (D : Type) : Type := {
  top_left_x : D;
  top_left_y : D;
  width : D;
  height : D
}.

Record Configuration (D : Type) : Type := {
  inverted : bool;
  perceived : bool;
  alt : bool;
  cols : Z;          (* uint32_t, [UINT32_MAX] when not given *)
  rows : Z;          (* uint32_t, [UINT32_MAX] when not given *)
  font_ratio : D;
  num_spaces : Z     (* size_t *)
}.

Section Program.
Context {D : Type} `{Double D}.
Local Open Scope dbl_scope.

Definition RED_WEIGHT_PERC : D := dlit 299 1000.
Definition GREEN_WEIGHT_PERC : D := dlit 587 1000.
Definition BLUE_WEIGHT_PERC : D := dlit 114 1000.

Definition RED_WEIGHT : D := dlit 2126 10000.
Definition GREEN_WEIGHT : D := dlit 7152 10000.
Definition BLUE_WEIGHT : D := dlit 722 10000.

Definition LUMA_MAX : D := of_int 255.

(** *** Luminance models *)

Definition luma (pixel : Color) : D :=
  let red := of_int (red pixel) in
  let green := of_int (green pixel) in
  let blue := of_int (blue pixel) in
  (RED_WEIGHT * red + GREEN_WEIGHT * green + BLUE_WEIGHT * blue) / LUMA_MAX.

Definition perceived_luma_fast (pixel : Color) : D :=
  let red := of_int (red pixel) in
  let green := of_int (green pixel) in
  let blue := of_int (blue pixel) in
  (RED_WEIGHT_PERC * red + GREEN_WEIGHT_PERC * green
   + BLUE_WEIGHT_PERC * blue) / LUMA_MAX.

Definition perceived_luma (pixel : Color) : D :=
  let red := of_int (red pixel) in
  let green := of_int (green pixel) in
  let blue := of_int (blue pixel) in
  dsqrt (RED_WEIGHT_PERC * red * red + GREEN_WEIGHT_PERC * green * green
         + BLUE_WEIGHT_PERC * blue * blue) / LUMA_MAX.

(** The model selected by the flags; [alt] takes precedence. *)
Definition pixel_luma (config : Configuration D) (pixel : Color) : D :=
  if alt config then perceived_luma_fast pixel
  else if perceived config then perceived_luma pixel
  else luma pixel.

(** *** Region sampling *)

(** [pixels.get()[i]]: reading outside the buffer is undefined. *)
Definition read_pixel (pixels : list Color) (i : Z) : outcome Color :=
  of_option (nth_error pixels (Z.to_nat i)).

(** The body of the inner loop of [average_luma], run for the [n]
    consecutive values of [x] from [x] on; the state is
    [(luma_accumulator, pixel_count)]. *)
Fixpoint scan_x (config : Configuration D) (pixels : list Color)
    (img_width y : Z) (n : nat) (x : Z) (st : D * D) : outcome (D * D) :=
  match n with
  | O => Done st
  | S n' =>
      pixel <- read_pixel pixels (wrap_size_t (x + y * img_width)) ;;
      scan_x config pixels img_width y n' (x + 1)%Z
        (fst st + pixel_luma config pixel, snd st + of_int 1)
  end.

(** The outer loop, run for the [n] consecutive values of [y] from [y]
    on.  Each pass evaluates the bounds of the inner loop. *)
Fixpoint scan_y (config : Configuration D) (pixels : list Color)
    (region : Quad D) (img_width : Z) (n : nat) (y : Z) (st : D * D)
    : outcome (D * D) :=
  match n with
  | O => Done st
  | S n' =>
      x0 <- to_size_t (top_left_x region) ;;
      x1 <- to_size_t (top_left_x region + width region) ;;
      st' <- scan_x config pixels img_width y
               (Z.to_nat (Z.min img_width x1 - x0)) x0 st ;;
      scan_y config pixels region img_width n' (y + 1)%Z st'
  end.

(** The pixel coordinates the two loops of [average_luma] visit, in
    order.  The bounds of the inner loop are evaluated only when the outer
    loop runs at all. *)
Fixpoint Zrange (lo : Z) (n : nat) : list Z :=
  match n with
  | O => []
  | S n' => lo :: Zrange (lo + 1)%Z n'
  end.

Definition region_pixels (region : Quad D) (img_width img_height : Z)
    : outcome (list (Z * Z)) :=
  y0 <- to_size_t (top_left_y region) ;;
  y1 <- to_size_t (top_left_y region + height region) ;;
  match Z.to_nat (Z.min img_height y1 - y0) with
  | O => Done []
  | S _ as ny =>
      x0 <- to_size_t (top_left_x region) ;;
      x1 <- to_size_t (top_left_x region + width region) ;;
      Done (flat_map
              (fun y => List.map (fun x => (x, y))
                          (Zrange x0 (Z.to_nat (Z.min img_width x1 - x0))))
              (Zrange y0 ny))
  end.

Definition average_luma (config : Configuration D) (pixels : list Color)
    (region : Quad D) (img_width img_height : Z) : outcome D :=
  y0 <- to_size_t (top_left_y region) ;;
  y1 <- to_size_t (top_left_y region + height region) ;;
  st <- scan_y config pixels region img_width
          (Z.to_nat (Z.min img_height y1 - y0)) y0 (of_int 0, of_int 0) ;;
  let (luma_accumulator, pixel_count) := st in
  if pixel_count =? of_int 0 then Done luma_accumulator
  else Done (luma_accumulator / pixel_count).

(** [average_luma] seen as one pass over [region_pixels]: every visited
    coordinate is read from the buffer and added to the state; the result
    is the mean, or the accumulator itself when nothing was counted. *)
Fixpoint accumulate (config : Configuration D) (pixels : list Color)
    (img_width : Z) (ps : list (Z * Z)) (st : D * D) : outcome (D * D) :=
  match ps with
  | [] => Done st
  | (x, y) :: ps' =>
      pixel <- read_pixel pixels (wrap_size_t (x + y * img_width)) ;;
      accumulate config pixels img_width ps'
        (fst st + pixel_luma config pixel, snd st + of_int 1)
  end.

Definition mean (st : D * D) : D :=
  let (luma_accumulator, pixel_count) := st in
  if pixel_count =? of_int 0 then luma_accumulator
  else luma_accumulator / pixel_count.

(** *** Density mapping and rendering *)

(** Lines 172-182 of [doAsciiConversion]: the character written for a
    region of the given luminance. *)
Definition density_index (config : Configuration D) (luminance : D)
    : outcome Z :=
  let luminance :=
    if negb (inverted config) then of_int 1 - luminance else luminance in
  to_size_t
    (of_int (wrap_size_t (DENSITY_size + num_spaces config - 1)) * luminance).

Definition density_char (config : Configuration D) (luminance : D)
    : outcome ascii :=
  index <- density_index config luminance ;;
  if (DENSITY_size <=? index)%Z then Done space
  else of_option (String.get (Z.to_nat index) DENSITY).

(** The body of the inner loop of [doAsciiConversion]: the character
    written for the region [char_quad]. *)
Definition region_char (config : Configuration D) (pixels : list Color)
    (img_width img_height : Z) (char_quad : Quad D) : outcome ascii :=
  luminance <- average_luma config pixels char_quad img_width img_height ;;
  density_char config luminance.

(** The inner loop of [doAsciiConversion] from [x] on: the characters it
    writes to [out]. *)
Fixpoint line_from (fuel : nat) (config : Configuration D)
    (pixels : list Color) (img_width img_height : Z)
    (quad_width quad_height y x : D) : outcome (list ascii) :=
  match fuel with
  | O => OutOfFuel
  | S fuel' =>
      if x <? of_int img_width then
        c <- region_char config pixels img_width img_height
               {| top_left_x := x; top_left_y := y;
                  width := quad_width; height := quad_height |} ;;
        rest <- line_from fuel' config pixels img_width img_height
                  quad_width quad_height y (x + quad_width) ;;
        Done (c :: rest)
      else Done []
  end.

(** The outer loop from [y] on; every inner loop gets the budget
    [fuel]. *)
Fixpoint lines_from (fuel : nat) (n : nat) (config : Configuration D)
    (pixels : list Color) (img_width img_height : Z)
    (quad_width quad_height y : D) : outcome (list ascii) :=
  match n with
  | O => OutOfFuel
  | S n' =>
      if y <? of_int img_height then
        line <- line_from fuel config pixels img_width img_height
                  quad_width quad_height y (of_int 0) ;;
        rest <- lines_from fuel n' config pixels img_width img_height
                  quad_width quad_height (y + quad_height) ;;
        Done (line ++ newline :: rest)
      else Done []
  end.

(** The text [doAsciiConversion] writes to [out]. *)
Definition doAsciiConversion (fuel : nat) (config : Configuration D)
    (pixels : list Color) (img_width img_height : Z)
    : outcome (list ascii) :=
  let quad_width := of_int img_width / of_int (cols config) in
  let quad_height :=
    of_int img_height / (of_int (rows config) * font_ratio config) in
  lines_from fuel fuel config pixels img_width img_height
    quad_width quad_height (of_int 0).

(** The regions the two loops of [doAsciiConversion] hand to
    [average_luma], in order (as far as the budget goes). *)
Fixpoint regions_line (fuel : nat) (img_width : Z)
    (quad_width quad_height y x : D) : list (Quad D) :=
  match fuel with
  | O => []
  | S fuel' =>
      if x <? of_int img_width then
        {| top_left_x := x; top_left_y := y;
           width := quad_width; height := quad_height |}
        :: regions_line fuel' img_width quad_width quad_height y
             (x + quad_width)
      else []
  end.

Fixpoint regions_from (fuel : nat) (n : nat) (img_width img_height : Z)
    (quad_width quad_height y : D) : list (Quad D) :=
  match n with
  | O => []
  | S n' =>
      if y <? of_int img_height then
        regions_line fuel img_width quad_width quad_height y (of_int 0)
        ++ regions_from fuel n' img_width img_height
             quad_width quad_height (y + quad_height)
      else []
  end.

Definition sampling_regions (fuel : nat) (config : Configuration D)
    (img_width img_height : Z) : list (Quad D) :=
  let quad_width := of_int img_width / of_int (cols config) in
  let quad_height :=
    of_int img_height / (of_int (rows config) * font_ratio config) in
  regions_from fuel fuel img_width img_height
    quad_width quad_height (of_int 0).

(** *** Columns and rows normalisation (in [main]) *)

Definition set_cols (config : Configuration D) (c : Z) : Configuration D :=
  {| inverted := inverted config; perceived := perceived config;
     alt := alt config; cols := c; rows := rows config;
     font_ratio := font_ratio config; num_spaces := num_spaces config |}.

Definition set_rows (config : Configuration D) (r : Z) : Configuration D :=
  {| inverted := inverted config; perceived := perceived config;
     alt := alt config; cols := cols config; rows := r;
     font_ratio := font_ratio config; num_spaces := num_spaces config |}.

Definition normalization (config : Configuration D) (width height : Z)
    : outcome (Configuration D) :=
  if ((cols config =? UINT32_MAX) && (rows config =? UINT32_MAX))%Z then
    Done (set_rows (set_cols config (wrap_uint32 width)) (wrap_uint32 height))
  else if (cols config =? UINT32_MAX)%Z then
    let cols := of_int (rows config) * of_int width / of_int height in
    c <- to_uint32 (cols + of_int 1) ;;
    Done (set_cols config c)
  else if (rows config =? UINT32_MAX)%Z then
    let rows := of_int (cols config) * of_int height / of_int width in
    r <- to_uint32 (rows + of_int 1) ;;
    Done (set_rows config r)
  else Done config.

(** [main] once the image is decoded: normalisation, then conversion. *)
Definition main (fuel : nat) (config : Configuration D)
    (pixels : list Color) (width height : Z) : outcome (list ascii) :=
  config' <- normalization config width height ;;
  doAsciiConversion fuel config' pixels width height.
End Program.

(** ** Configurations and images to run on *)

(** The defaults of [struct Configuration]. *)
Definition default_config {D : Type} `{Double D} : Configuration D :=
  {| inverted := false; perceived := false; alt := false;
     cols := UINT32_MAX; rows := UINT32_MAX;
     font_ratio := dlit 1 2; num_spaces := 9 |}.

Definition cfg {D : Type} (inv : bool) (c r : Z) (f : D) (p : Z)
    : Configuration D :=
  {| inverted := inv; perceived := false; alt := false;
     cols := c; rows := r; font_ratio := f; num_spaces := p |}.

Definition white : Color := {| red := 255; green := 255; blue := 255 |}.
Definition black : Color := {| red := 0; green := 0; blue := 0 |}.
Definition grey (v : Z) : Color := {| red := v; green := v; blue := v |}.

(** A one-colour image of [width] x [height] pixels. *)
Definition solid (c : Color) (width height : Z) : list Color :=
  repeat c (Z.to_nat (width * height)).

(** ** The exact value of a double *)

Definition float_value (x : float) : option Q :=
  match Prim2SF x with
  | S754_zero _ => Some 0%Q
  | S754_finite s m e =>
      let a := (inject_Z (Zpos m) * Qpower 2 e)%Q in
      Some (if s then (- a)%Q else a)
  | S754_infinity _ => None
  | S754_nan => None
  end.

(** [x] is a finite double within [tol] of the rational [q]. *)
Definition float_near (tol q : Q) (x : float) : bool :=
  match float_value x with
  | Some v => Qle_bool (Qabs (v - q)) tol
  | None => false
  end.

Definition DBL_EPSILON : Q := 1 # (2 ^ 52).

(** The three models agree with [v/255] on the grey pixel [v], up to the
    machine epsilon. *)
Definition grey_within_tolerance (v : Z) : bool :=
  float_near DBL_EPSILON (v # 255) (luma (grey v))
  && float_near DBL_EPSILON (v # 255) (perceived_luma_fast (grey v))
  && float_near DBL_EPSILON (v # 255) (perceived_luma (grey v)).

(** ** The specification's wording *)

Definition RAMP_LENGTH : Z := DENSITY_size.

Definition ramp (index : Z) : ascii :=
  match String.get (Z.to_nat index) DENSITY with
  | Some c => c
  | None => space
  end.

(** Density mapper: "if invert is false, replace L with 1 - L; compute
    index = floor((RAMP_LENGTH + P - 1) * L); if index >= RAMP_LENGTH emit a
    space, otherwise emit ramp[index]". *)
Definition spec_index (P : Z) (invert : bool) (L : R) : Z :=
  let L := if invert then L else (1 - L)%R in
  Zfloor (IZR (RAMP_LENGTH + P - 1) * L).

Definition spec_density_char (P : Z) (invert : bool) (L : R) : ascii :=
  let index := spec_index P invert L in
  if (RAMP_LENGTH <=? index)%Z then space else ramp index.

(** The luminance after the inversion step. *)
Definition oriented (invert : bool) (L : R) : R :=
  if invert then L else (1 - L)%R.

(** Output dimension resolver, only columns given:
    "rows = ceil(columns * H / W * F)". *)
Definition spec_rows (W H columns : Z) (F : Q) : Z :=
  Qceiling (inject_Z columns * inject_Z H / inject_Z W * F)%Q.

(** Text made of [lines], each followed by one line terminator. *)
Definition unlines (lines : list (list ascii)) : list ascii :=
  List.concat (List.map (fun l => (l ++ [newline])%list) lines).

Definition printable (c : ascii) : Prop := (32 < nat_of_ascii c < 127)%nat.

Definition ramp_or_space (c : ascii) : Prop :=
  c = space \/ In c (list_ascii_of_string DENSITY).

Definition output_char (c : ascii) : Prop :=
  c = newline \/ ramp_or_space c.

(** ** Counting pixels *)

(** How often the pixel [p] occurs in a list of coordinates, and how often
    [z] occurs in a list of integers. *)
Definition same_pixel (p q : Z * Z) : bool :=
  ((fst p =? fst q) && (snd p =? snd q))%Z.

Definition occurrences (p : Z * Z) (l : list (Z * Z)) : nat :=
  List.length (List.filter (same_pixel p) l).

Definition Zcount (z : Z) (l : list Z) : nat :=
  List.length (List.filter (Z.eqb z) l).

(** The pixel sets of a list of regions, when all their bounds convert. *)
Fixpoint all_region_pixels {D : Type} `{Double D} (regions : list (Quad D))
    (W Hh : Z) : outcome (list (list (Z * Z))) :=
  match regions with
  | [] => Done []
  | q :: regions' =>
      ps <- region_pixels q W Hh ;;
      pss <- all_region_pixels regions' W Hh ;;
      Done (ps :: pss)
  end.

(** ** The fixed-block variant *)

(** The historical fixed-block variant ([src/main.cpp]) scales by
    [DENSITY.size() + num_spaces], without the [- 1]. *)
Definition density_index_fixed_block {D : Type} `{Double D}
    (config : Configuration D) (luminance : D) : outcome Z :=
  let luminance :=
    if negb (inverted config) then (of_int 1 - luminance)%dbl
    else luminance in
  to_size_t
    (of_int (wrap_size_t (DENSITY_size + num_spaces config)) * luminance)%dbl.

(** ** Exact arithmetic: regions and grid *)

Definition INT_MAX : Z := 2 ^ 31 - 1.   (* [int w, h] in [main] *)

(** A region with a non-negative corner and an extent that stays below
    2^64: its bounds convert, so its pixel set is defined. *)
Definition region_sane (region : Quad R) : Prop :=
  (0 <= top_left_x region /\ 0 <= top_left_y region
   /\ 0 <= width region /\ 0 <= height region
   /\ top_left_x region + width region < IZR (SIZE_MAX + 1)
   /\ top_left_y region + height region < IZR (SIZE_MAX + 1))%R.

(** The pixel columns, pixel rows and pixel coordinates of a region. *)
Definition x_range (region : Quad R) (W : Z) : list Z :=
  Zrange (Zfloor (top_left_x region))
    (Z.to_nat (Z.min W (Zfloor (top_left_x region + width region)%R)
               - Zfloor (top_left_x region))).

Definition y_range (region : Quad R) (Hh : Z) : list Z :=
  Zrange (Zfloor (top_left_y region))
    (Z.to_nat (Z.min Hh (Zfloor (top_left_y region + height region)%R)
               - Zfloor (top_left_y region))).

Definition region_pixel_list (W Hh : Z) (q : Quad R) : list (Z * Z) :=
  flat_map (fun y => List.map (fun x => (x, y)) (x_range q W)) (y_range q Hh).

(** The character [doAsciiConversion] writes for a region. *)
Definition cell_char (config : Configuration R) (pixels : list Color)
    (W Hh : Z) (q : Quad R) : ascii :=
  match region_char config pixels W Hh q with
  | Done c => c
  | _ => space
  end.

(** The region of column [k] in text line [j]. *)
Definition grid_quad (config : Configuration R) (W Hh : Z) (j k : nat)
    : Quad R :=
  let quad_width := (IZR W / IZR (cols config))%R in
  let quad_height := (IZR Hh / (IZR (rows config) * font_ratio config))%R in
  {| top_left_x := (INR k * quad_width)%R;
     top_left_y := (INR j * quad_height)%R;
     width := quad_width; height := quad_height |}.

(** The number of text lines: ceil(rows * font_ratio). *)
Definition line_count (config : Configuration R) : nat :=
  Z.to_nat (Zceil (IZR (rows config) * font_ratio config)).

(** Text line [j] of the grid, the whole text, and the regions of the grid
    in sampling order. *)
Definition grid_line (config : Configuration R) (pixels : list Color)
    (W Hh : Z) (j : nat) : list ascii :=
  List.map (fun k => cell_char config pixels W Hh (grid_quad config W Hh j k))
    (seq 0 (Z.to_nat (cols config))).

Definition grid_text (config : Configuration R) (pixels : list Color)
    (W Hh : Z) : list (list ascii) :=
  List.map (grid_line config pixels W Hh) (seq 0 (line_count config)).

Definition grid_regions (config : Configuration R) (W Hh : Z)
    : list (Quad R) :=
  flat_map
    (fun j => List.map (fun k => grid_quad config W Hh j k)
                (seq 0 (Z.to_nat (cols config))))
    (seq 0 (line_count config)).

(** * Further parts of the program *)

(** ** [clamp] *)

(** [constexpr uint32_t clamp(uint32_t x, uint32_t min, uint32_t max)]. *)
Definition clamp (x min max : Z) : Z :=
  if (x <? min)%Z then min
  else if (max <? x)%Z then max
  else x.

(** ** Reading the buffer by coordinate; sums of luminances *)

Definition pixel_at (pixels : list Color) (W : Z) (p : Z * Z) : Color :=
  nth (Z.to_nat (fst p + snd p * W)) pixels black.

Definition Rsum (l : list R) : R := fold_right Rplus 0%R l.

(** A pixel at least as bright as another in every channel. *)
Definition Color_le (c1 c2 : Color) : Prop :=
  (red c1 <= red c2)%Z /\ (green c1 <= green c2)%Z /\ (blue c1 <= blue c2)%Z.

(** ** The command line *)

(** A call of the parser returns, or an exception of the standard library
    leaves [main] ([std::invalid_argument], [std::out_of_range]), or a
    write goes past the end of a buffer, or a null pointer is read, or the
    budget of the model is spent. *)
Inductive run (A : Type) : Type :=
| Returns (a : A)
| Throws
| Overruns
| NullRead
| Unfinished.

Arguments Returns {A} a.
Arguments Throws {A}.
Arguments Overruns {A}.
Arguments NullRead {A}.
Arguments Unfinished {A}.

Definition and_then {A B : Type} (c : run A) (k : A -> run B) : run B :=
  match c with
  | Returns a => k a
  | Throws => Throws
  | Overruns => Overruns
  | NullRead => NullRead
  | Unfinished => Unfinished
  end.

Notation "x <~ c ;; k" := (and_then c (fun x => k))
  (at level 61, c at next level, right associativity).

Definition or_throw {A : Type} (o : option A) : run A :=
  match o with
  | Some a => Returns a
  | None => Throws
  end.

(** *** [std::stoi] and [std::stoull] (base 10, "C" locale) *)

Definition INT_MIN : Z := - 2 ^ 31.

Definition isspace (c : ascii) : bool :=
  let n := nat_of_ascii c in
  (n =? 32)%nat || ((9 <=? n)%nat && (n <=? 13)%nat).

Definition digit_value (c : ascii) : option Z :=
  let n := nat_of_ascii c in
  if ((48 <=? n)%nat && (n <=? 57)%nat) then Some (Z.of_nat n - 48)%Z
  else None.

Fixpoint skip_spaces (s : string) : string :=
  match s with
  | String c s' => if isspace c then skip_spaces s' else s
  | EmptyString => s
  end.

(** The value of the longest prefix of digits, continuing from [acc]. *)
Fixpoint digits (s : string) (acc : Z) : Z :=
  match s with
  | String c s' =>
      match digit_value c with
      | Some d => digits s' (10 * acc + d)%Z
      | None => acc
      end
  | EmptyString => acc
  end.

(** No conversion can be performed when no digit follows the sign. *)
Definition magnitude (s : string) : option Z :=
  match s with
  | String c _ =>
      match digit_value c with
      | Some _ => Some (digits s 0)
      | None => None
      end
  | EmptyString => None
  end.

(** White space, an optional sign, digits: the sign and the magnitude. *)
Definition signed_number (s : string) : option (bool * Z) :=
  match skip_spaces s with
  | String "-" s' => option_map (pair true) (magnitude s')
  | String "+" s' => option_map (pair false) (magnitude s')
  | s' => option_map (pair false) (magnitude s')
  end.

Definition stoi (s : string) : run Z :=
  match signed_number s with
  | None => Throws                                  (* invalid_argument *)
  | Some (negative, m) =>
      let v := if negative : bool then (- m)%Z else m in
      if ((INT_MIN <=? v) && (v <=? INT_MAX))%Z then Returns v
      else Throws                                   (* out_of_range *)
  end.

(** [strtoull] negates a value with a minus sign in the unsigned type. *)
Definition stoull (s : string) : run Z :=
  match signed_number s with
  | None => Throws
  | Some (negative, m) =>
      if (m <=? SIZE_MAX)%Z then
        Returns (if negative : bool then wrap_size_t (- m) else m)
      else Throws
  end.

(** *** [strtok] with [RATIO_DELIM] *)

Definition RATIO_DELIM : string := ":/".

Definition is_delim (c : ascii) : bool :=
  existsb (Ascii.eqb c) (list_ascii_of_string RATIO_DELIM).

Fixpoint skip_delims (s : string) : string :=
  match s with
  | String c s' => if is_delim c then skip_delims s' else s
  | EmptyString => s
  end.

(** The token at the head of [s] and what follows the delimiter that ends
    it. *)
Fixpoint take_token (s : string) : string * string :=
  match s with
  | String c s' =>
      if is_delim c then (EmptyString, s')
      else let (token, rest) := take_token s' in (String c token, rest)
  | EmptyString => (EmptyString, EmptyString)
  end.

(** One call of [strtok]: the next token and the saved position, or a null
    pointer when only delimiters are left. *)
Definition strtok (s : string) : option (string * string) :=
  match skip_delims s with
  | EmptyString => None
  | s' => Some (take_token s')
  end.

(** *** The parsed command line *)

(** [struct Configuration] of the source also holds the usage flag and the
    two paths, which the conversion does not read. *)
Record CommandLine (D : Type) : Type := {
  settings : Configuration D;
  print_usage : bool;
  input_path : string;
  output_path : string
}.

(** The two copies of the parser differ in the buffer of the [-r] value:
    [new char[arg.length()]] in one, [std::make_unique<char>(arg.length())],
    a single [char], in the other. *)
Inductive variant : Type := part_002 | part_003.

Definition ratio_buffer_size (v : variant) (length : nat) : nat :=
  match v with
  | part_002 => length
  | part_003 => 1%nat
  end.

Definition NUL : ascii := ascii_of_nat 0.

(** The options that wait for a value. *)
Definition takes_value (a : ascii) : bool :=
  existsb (Ascii.eqb a) ["W"; "H"; "n"; "o"; "r"]%char.

Section Parser.
Context {D : Type} `{Double D}.

(** [std::stod], left open: the value, or none when it throws. *)
Variable stod : string -> option D.

Definition set_inverted (config : Configuration D) : Configuration D :=
  {| inverted := true; perceived := perceived config;
     alt := alt config; cols := cols config; rows := rows config;
     font_ratio := font_ratio config; num_spaces := num_spaces config |}.

Definition set_perceived (config : Configuration D) : Configuration D :=
  {| inverted := inverted config; perceived := true;
     alt := alt config; cols := cols config; rows := rows config;
     font_ratio := font_ratio config; num_spaces := num_spaces config |}.

Definition set_alt (config : Configuration D) : Configuration D :=
  {| inverted := inverted config; perceived := perceived config;
     alt := true; cols := cols config; rows := rows config;
     font_ratio := font_ratio config; num_spaces := num_spaces config |}.

Definition set_font_ratio (config : Configuration D) (f : D)
    : Configuration D :=
  {| inverted := inverted config; perceived := perceived config;
     alt := alt config; cols := cols config; rows := rows config;
     font_ratio := f; num_spaces := num_spaces config |}.

Definition set_num_spaces (config : Configuration D) (n : Z)
    : Configuration D :=
  {| inverted := inverted config; perceived := perceived config;
     alt := alt config; cols := cols config; rows := rows config;
     font_ratio := font_ratio config; num_spaces := n |}.

Definition with_settings (config : CommandLine D) (s : Configuration D)
    : CommandLine D :=
  {| settings := s; print_usage := print_usage config;
     input_path := input_path config; output_path := output_path config |}.

Definition with_usage (config : CommandLine D) : CommandLine D :=
  {| settings := settings config; print_usage := true;
     input_path := input_path config; output_path := output_path config |}.

Definition with_input_path (config : CommandLine D) (path : string)
    : CommandLine D :=
  {| settings := settings config; print_usage := print_usage config;
     input_path := path; output_path := output_path config |}.

Definition with_output_path (config : CommandLine D) (path : string)
    : CommandLine D :=
  {| settings := settings config; print_usage := print_usage config;
     input_path := input_path config; output_path := path |}.

(** The defaults of [struct Configuration]. *)
Definition default_command_line : CommandLine D :=
  {| settings := default_config; print_usage := false;
     input_path := EmptyString; output_path := EmptyString |}.

Definition starts_with_dash (arg : string) : bool :=
  match arg with
  | String "-" _ => true
  | _ => false
  end.

(** The [-r] value: copied into the buffer with [strcpy], which writes
    [arg.length() + 1] bytes, then split at the delimiters. *)
Definition parse_ratio (v : variant) (config : CommandLine D) (arg : string)
    : run (CommandLine D) :=
  if (String.length arg + 1 <=? ratio_buffer_size v (String.length arg))%nat
  then
    match strtok arg with
    | None => Returns config          (* then [y_part] is null as well *)
    | Some (x_part, rest) =>
        match strtok rest with
        | None => Returns config
        | Some (y_part, _) =>
            x <~ or_throw (stod x_part) ;;
            y <~ or_throw (stod y_part) ;;
            Returns (with_settings config
                       (set_font_ratio (settings config) (x / y)%dbl))
        end
    end
  else Overruns.

(** The first [switch] of [parse_arg]: an argument that does not start
    with a dash, by the option it follows. *)
Definition parse_value (v : variant) (previous_arg : ascii)
    (config : CommandLine D) (arg : string) : run (CommandLine D) :=
  match previous_arg with
  | "W"%char =>
      n <~ stoi arg ;;
      Returns (with_settings config (set_cols (settings config) (wrap_uint32 n)))
  | "H"%char =>
      n <~ stoi arg ;;
      Returns (with_settings config (set_rows (settings config) (wrap_uint32 n)))
  | "n"%char =>
      n <~ stoull arg ;;
      Returns (with_settings config (set_num_spaces (settings config) n))
  | "o"%char => Returns (with_output_path config arg)
  | "r"%char => parse_ratio v config arg
  | _ => Returns (with_input_path config arg)
  end.

(** The second [switch]: one character of a group of flags. *)
Definition parse_flag (a : ascii) (st : CommandLine D * ascii)
    : CommandLine D * ascii :=
  let (config, previous_arg) := st in
  match a with
  | "W"%char | "H"%char | "n"%char | "o"%char | "r"%char => (config, a)
  | "a"%char => (with_settings config (set_alt (settings config)), previous_arg)
  | "h"%char => (with_usage config, previous_arg)
  | "i"%char =>
      (with_settings config (set_inverted (settings config)), previous_arg)
  | "p"%char =>
      (with_settings config (set_perceived (settings config)), previous_arg)
  | _ => (with_usage config, previous_arg)
  end.

(** The [for] loop of [parse_arg] from the suffix [s] of the argument on;
    [recur] is [parse_arg] itself, called on that suffix as soon as an
    option waits for its value. *)
Fixpoint scan_flags
    (recur : CommandLine D * ascii -> string -> run (CommandLine D * ascii))
    (st : CommandLine D * ascii) (s : string)
    : run (CommandLine D * ascii) :=
  match s with
  | EmptyString => Returns st
  | String a s' =>
      if negb (Ascii.eqb (snd st) NUL) then recur st s
      else scan_flags recur (parse_flag a st) s'
  end.

(** [parse_arg]; the state pairs the configuration with the static
    [previous_arg]. *)
Fixpoint parse_arg_in (fuel : nat) (v : variant)
    (st : CommandLine D * ascii) (arg : string)
    : run (CommandLine D * ascii) :=
  match fuel with
  | O => Unfinished
  | S fuel' =>
      if negb (starts_with_dash arg) then
        config <~ parse_value v (snd st) (fst st) arg ;;
        Returns (config, NUL)
      else if prefix "--" arg && String.eqb "--help" arg then
        Returns (with_usage (fst st), snd st)
      else
        scan_flags (parse_arg_in fuel' v) st
          (substring 1 (String.length arg - 1) arg)
  end.

(** Every recursive call is on a shorter argument. *)
Definition parse_arg (v : variant) (st : CommandLine D * ascii)
    (arg : string) : run (CommandLine D * ascii) :=
  parse_arg_in (S (String.length arg)) v st arg.

Fixpoint parse_args (v : variant) (st : CommandLine D * ascii)
    (argv : list string) : run (CommandLine D * ascii) :=
  match argv with
  | [] => Returns st
  | arg :: argv' =>
      st' <~ parse_arg v st arg ;;
      parse_args v st' argv'
  end.

(** [argv] with the program name at its head. *)
Definition parse_command_line_args (v : variant) (argv : list string)
    : run (CommandLine D) :=
  if (List.length argv <? 2)%nat then Returns (with_usage default_command_line)
  else
    st <~ parse_args v (default_command_line, NUL) (List.tl argv) ;;
    Returns (fst st).

(** The test at the head of [main]: the usage text is printed and nothing
    is converted. *)
Definition shows_usage (config : CommandLine D) : bool :=
  print_usage config || String.eqb (input_path config) EmptyString.
End Parser.

(** The values [previous_arg] takes: no option waits, or one that takes a
    value does. *)
Definition waits_or_idle (p : ascii) : Prop :=
  p = NUL \/ takes_value p = true.

(** No flag of the second configuration is cleared with respect to the
    first. *)
Definition flags_kept {D : Type} (c c' : CommandLine D) : Prop :=
  (print_usage c = true -> print_usage c' = true)
  /\ (inverted (settings c) = true -> inverted (settings c') = true)
  /\ (perceived (settings c) = true -> perceived (settings c') = true)
  /\ (alt (settings c) = true -> alt (settings c') = true).

(** ** The fixed-block variant ([src/main.cpp]) *)

(** The earlier program: every character stands for a block of
    [x_thingy] x [y_thingy] pixels, the loops run on [int]s, and the
    command line is read by one function. *)
Module FixedBlock.

Record configuration : Type := {
  malformed : bool;
  inverted : bool;
  perceived : bool;
  alt : bool;
  x_thingy : Z;                  (* size_t *)
  y_thingy : Z;                  (* size_t *)
  num_spaces : Z;                (* size_t *)
  output_path : option string    (* [const char*]; none: a null pointer *)
}.

Definition OUT_PATH : string := "./out.txt".

Definition default : configuration :=
  {| malformed := false; inverted := false; perceived := false;
     alt := false; x_thingy := 1; y_thingy := 2; num_spaces := 9;
     output_path := Some OUT_PATH |}.

Definition set_malformed (res : configuration) : configuration :=
  {| malformed := true; inverted := inverted res;
     perceived := perceived res; alt := alt res;
     x_thingy := x_thingy res; y_thingy := y_thingy res;
     num_spaces := num_spaces res; output_path := output_path res |}.

Definition set_inverted (res : configuration) : configuration :=
  {| malformed := malformed res; inverted := true;
     perceived := perceived res; alt := alt res;
     x_thingy := x_thingy res; y_thingy := y_thingy res;
     num_spaces := num_spaces res; output_path := output_path res |}.

Definition set_perceived (res : configuration) : configuration :=
  {| malformed := malformed res; inverted := inverted res;
     perceived := true; alt := alt res;
     x_thingy := x_thingy res; y_thingy := y_thingy res;
     num_spaces := num_spaces res; output_path := output_path res |}.

Definition set_alt (res : configuration) : configuration :=
  {| malformed := malformed res; inverted := inverted res;
     perceived := perceived res; alt := true;
     x_thingy := x_thingy res; y_thingy := y_thingy res;
     num_spaces := num_spaces res; output_path := output_path res |}.

Definition set_num_spaces (res : configuration) (n : Z) : configuration :=
  {| malformed := malformed res; inverted := inverted res;
     perceived := perceived res; alt := alt res;
     x_thingy := x_thingy res; y_thingy := y_thingy res;
     num_spaces := n; output_path := output_path res |}.

Definition set_output_path (res : configuration) (path : option string)
    : configuration :=
  {| malformed := malformed res; inverted := inverted res;
     perceived := perceived res; alt := alt res;
     x_thingy := x_thingy res; y_thingy := y_thingy res;
     num_spaces := num_spaces res; output_path := path |}.

(** *** [parse_command_line_args] *)

(** No character of [s] is one of [chars]. *)
Definition lacks (chars s : string) : bool :=
  forallb
    (fun c => negb (existsb (Ascii.eqb c) (list_ascii_of_string chars)))
    (list_ascii_of_string s).

(** How the loop over the characters of one argument ends: at the end of
    the argument, having taken the next argument as a value or not, or by
    a [return]. *)
Inductive scanned : Type :=
| Scanned (res : configuration) (took_next : bool)
| Returned (res : configuration).

(** The loop over the characters of [argv[i]] from [charIndex] on: [s] is
    the argument from [charIndex], [next] is [argv[i + 1]], a null pointer
    after the last argument. *)
Fixpoint scan_chars (res : configuration) (s : string) (next : option string)
    : run scanned :=
  match s with
  | EmptyString => Returns (Scanned res false)
  | String c s' =>
      match c with
      | "-"%char =>
          if negb (String.eqb s' EmptyString) && negb (String.eqb s' "help")
          then Returns (Returned (set_malformed res))
          else scan_chars res s' next
      | "a"%char => scan_chars (set_alt res) s' next
      | "h"%char => Returns (Returned (set_malformed res))
      | "i"%char => scan_chars (set_inverted res) s' next
      | "n"%char =>
          match s' with
          | EmptyString =>
              match next with
              | None => NullRead
              | Some value =>
                  n <~ stoull value ;;
                  Returns (Scanned (set_num_spaces res n) true)
              end
          | _ =>
              n <~ stoull s' ;;
              scan_chars (set_num_spaces res n) s' next
          end
      | "o"%char =>
          match s' with
          | EmptyString => Returns (Scanned (set_output_path res next) true)
          | _ => scan_chars (set_output_path res (Some s')) s' next
          end
      | "p"%char => scan_chars (set_perceived res) s' next
      | _ => scan_chars res s' next
      end
  end.

(** The loop over [argv] from [argv[i]] on; [skip] when [argv[i]] was taken
    as a value by the argument before it. *)
Fixpoint parse_from (res : configuration) (skip : bool) (argv : list string)
    : run configuration :=
  match argv with
  | [] => Returns res
  | arg :: rest =>
      if skip then parse_from res false rest
      else
        match arg with
        | String "-" s =>
            r <~ scan_chars res s (List.hd_error rest) ;;
            match r with
            | Scanned res' took_next => parse_from res' took_next rest
            | Returned res' => Returns res'
            end
        | _ => parse_from res false rest
        end
  end.

(** The loop starts at [argv[0]], the program name. *)
Definition parse_command_line_args (argv : list string)
    : run configuration :=
  if (List.length argv <? 2)%nat then Returns (set_malformed default)
  else parse_from default false argv.

(** The image path [main] loads: [argv[args - 1]]. *)
Definition img_path (argv : list string) : option string :=
  List.nth_error argv (List.length argv - 1).

(** *** [average_luma] and the loops of [main] *)

(** Arithmetic on [int] must not overflow. *)
Definition to_int (z : Z) : outcome Z :=
  if ((INT_MIN <=? z) && (z <=? INT_MAX))%Z then Done z else Undefined.

(** The conversion of a [size_t] to [int] keeps the low 32 bits. *)
Definition int_of_size_t (z : Z) : Z :=
  ((z + 2 ^ 31) mod 2 ^ 32 - 2 ^ 31)%Z.

(** [x += step] for an [int x] and a [size_t step]. *)
Definition advance (x step : Z) : Z :=
  int_of_size_t (wrap_size_t (wrap_size_t x + step)).

Section Conversion.
Context {D : Type} `{Double D}.
Local Open Scope dbl_scope.

Definition pixel_luma (config : configuration) (pixel : Color) : D :=
  if alt config then perceived_luma_fast pixel
  else if perceived config then perceived_luma pixel
  else luma pixel.

(** [pixels.get()[x + y * width]], the index computed in [int]. *)
Definition read_at (pixels : list Color) (width x y : Z) : outcome Color :=
  p <- to_int (y * width) ;;
  i <- to_int (x + p) ;;
  if (i <? 0)%Z then Undefined else read_pixel pixels i.

(** The inner loop of [average_luma] from [x] on; the state is
    [(luminance, denom)]. *)
Fixpoint block_x (fuel : nat) (config : configuration) (pixels : list Color)
    (width startx starty y x : Z) (st : D * D) : outcome (D * D) :=
  match fuel with
  | O => OutOfFuel
  | S fuel' =>
      if (x <? width)%Z then
        d <- to_int (x - startx) ;;
        if (wrap_size_t d <? x_thingy config)%Z then
          pixel <- read_at pixels width x y ;;
          let luminance := fst st + pixel_luma config pixel in
          let denom :=
            if negb (y =? starty)%Z || negb (x =? startx)%Z
            then snd st + of_int 1 else snd st in
          x' <- to_int (x + 1) ;;
          block_x fuel' config pixels width startx starty y x'
            (luminance, denom)
        else Done st
      else Done st
  end.

(** The outer loop from [y] on; every inner loop gets the budget
    [fuel]. *)
Fixpoint block_y (fuel : nat) (n : nat) (config : configuration)
    (pixels : list Color) (width height startx starty y : Z) (st : D * D)
    : outcome (D * D) :=
  match n with
  | O => OutOfFuel
  | S n' =>
      if (y <? height)%Z then
        d <- to_int (y - starty) ;;
        if (wrap_size_t d <? y_thingy config)%Z then
          st' <- block_x fuel config pixels width startx starty y startx st ;;
          y' <- to_int (y + 1) ;;
          block_y fuel n' config pixels width height startx starty y' st'
        else Done st
      else Done st
  end.

Definition average_luma (fuel : nat) (config : configuration)
    (pixels : list Color) (width height startx starty : Z) : outcome D :=
  st <- block_y fuel fuel config pixels width height startx starty starty
          (of_int 0, of_int 1) ;;
  Done (fst st / snd st).

(** The body of the inner loop of [main]: the character written for the
    block at [(x, y)]. *)
Definition block_char (fuel : nat) (config : configuration)
    (pixels : list Color) (width height x y : Z) : outcome ascii :=
  luminance <- average_luma fuel config pixels width height x y ;;
  let luminance :=
    if negb (inverted config) then of_int 1 - luminance else luminance in
  index <- to_size_t
             (of_int (wrap_size_t (DENSITY_size + num_spaces config))
              * luminance) ;;
  if (DENSITY_size <=? index)%Z then Done space
  else of_option (String.get (Z.to_nat index) DENSITY).

(** The inner loop of [main] from [x] on, and the outer loop from [y]
    on. *)
Fixpoint row_from (fuel : nat) (n : nat) (config : configuration)
    (pixels : list Color) (width height y x : Z) : outcome (list ascii) :=
  match n with
  | O => OutOfFuel
  | S n' =>
      if (x <? width)%Z then
        c <- block_char fuel config pixels width height x y ;;
        rest <- row_from fuel n' config pixels width height y
                  (advance x (x_thingy config)) ;;
        Done (c :: rest)
      else Done []
  end.

Fixpoint rows_from (fuel : nat) (n : nat) (config : configuration)
    (pixels : list Color) (width height y : Z) : outcome (list ascii) :=
  match n with
  | O => OutOfFuel
  | S n' =>
      if (y <? height)%Z then
        line <- row_from fuel fuel config pixels width height y 0 ;;
        rest <- rows_from fuel n' config pixels width height
                  (advance y (y_thingy config)) ;;
        Done (line ++ newline :: rest)
      else Done []
  end.

(** The text [main] writes to the output file. *)
Definition conversion (fuel : nat) (config : configuration)
    (pixels : list Color) (width height : Z) : outcome (list ascii) :=
  rows_from fuel fuel config pixels width height 0.
End Conversion.

(** The pixels of the block at [(startx, starty)], in the order of the
    loops. *)
Definition block_pixels (config : configuration)
    (width height startx starty : Z) : list (Z * Z) :=
  flat_map
    (fun y =>
       List.map (fun x => (x, y))
         (Zrange startx
            (Z.to_nat (Z.min width (startx + x_thingy config) - startx))))
    (Zrange starty
       (Z.to_nat (Z.min height (starty + y_thingy config) - starty))).

(** The number of blocks along a side: the quotient, rounded up. *)
Definition blocks (side step : Z) : Z := ((side + step - 1) / step)%Z.
End FixedBlock.

(** * Properties *)

Unset Implicit Arguments.

(** ** The loop budget *)

Lemma bind_Done {A B : Type} (c : outcome A) (k : A -> outcome B) (b : B) :
  bind c k = Done b -> exists a, c = Done a /\ k a = Done b.
Proof.
  destruct c as [a| |]; simpl; intros Hk; try discriminate.
  exists a; split; [reflexivity | exact Hk].
Qed.

Lemma Done_inj {A : Type} (a b : A) : Done a = Done b -> a = b.
Proof. intros Heq. injection Heq as Heq. exact Heq. Qed.

Lemma bind_not_OutOfFuel {A B : Type} (c : outcome A) (k : A -> outcome B) :
  bind c k <> OutOfFuel ->
  c <> OutOfFuel /\ forall a, c = Done a -> k a <> OutOfFuel.
Proof.
  destruct c as [a| |]; simpl; intros Hk; split; congruence.
Qed.

Section Budget.
Context {D : Type} `{Double D}.

(** A run that ends within its budget ends the same way with a larger
    one. *)
Lemma line_from_more_fuel (config : Configuration D) pixels W Hh qw qh y :
  forall fuel fuel' x,
    (fuel <= fuel')%nat ->
    line_from fuel config pixels W Hh qw qh y x <> OutOfFuel ->
    line_from fuel' config pixels W Hh qw qh y x
    = line_from fuel config pixels W Hh qw qh y x.
Proof.
  induction fuel as [|fuel IH]; intros fuel' x Hle Hne.
  - simpl in Hne. congruence.
  - destruct fuel' as [|fuel']; [lia|].
    simpl in *. destruct (dlt x (of_int W)); [|reflexivity].
    destruct (region_char config pixels W Hh _) as [c| |]; simpl in *;
      try reflexivity.
    rewrite IH; [reflexivity | lia |].
    intros Hout. rewrite Hout in Hne. simpl in Hne. congruence.
Qed.

Lemma lines_from_more_fuel (config : Configuration D) pixels W Hh qw qh :
  forall fuel fuel' n n' y,
    (fuel <= fuel')%nat -> (n <= n')%nat ->
    lines_from fuel n config pixels W Hh qw qh y <> OutOfFuel ->
    lines_from fuel' n' config pixels W Hh qw qh y
    = lines_from fuel n config pixels W Hh qw qh y.
Proof.
  intros fuel fuel' n. induction n as [|n IH]; intros n' y Hf Hn Hne.
  - simpl in Hne. congruence.
  - destruct n' as [|n']; [lia|].
    simpl in *. destruct (dlt y (of_int Hh)); [|reflexivity].
    destruct (bind_not_OutOfFuel _ _ Hne) as [Hl Hrest].
    rewrite (line_from_more_fuel config pixels W Hh qw qh y fuel fuel' _ Hf Hl).
    destruct (line_from fuel config pixels W Hh qw qh y (of_int 0))
      as [line| |]; simpl in *; try reflexivity.
    rewrite IH; [reflexivity | exact Hf | lia |].
    intros Hout. rewrite Hout in Hne. simpl in Hne. congruence.
Qed.

Lemma doAsciiConversion_more_fuel (config : Configuration D) pixels W Hh
    (fuel fuel' : nat) :
  (fuel <= fuel')%nat ->
  doAsciiConversion fuel config pixels W Hh <> OutOfFuel ->
  doAsciiConversion fuel' config pixels W Hh
  = doAsciiConversion fuel config pixels W Hh.
Proof.
  intros Hle Hne. unfold doAsciiConversion in *.
  apply lines_from_more_fuel; assumption.
Qed.
End Budget.

(** ** Exact arithmetic: conversions and comparisons *)

Lemma SIZE_MAX_value : SIZE_MAX = 18446744073709551615%Z.
Proof. reflexivity. Qed.

Lemma DENSITY_size_value : DENSITY_size = 68%Z.
Proof. reflexivity. Qed.

Section Exact.
Local Open Scope R_scope.

Lemma R_trunc_nonneg (x : R) : 0 <= x -> R_trunc x = Zfloor x.
Proof.
  intros Hx. unfold R_trunc. destruct (Rle_dec 0 x); [reflexivity | tauto].
Qed.

Lemma Zfloor_nonneg (x : R) : 0 <= x -> (0 <= Zfloor x)%Z.
Proof. intros Hx. apply Zfloor_lub. exact Hx. Qed.

Lemma Zfloor_below (x : R) (z : Z) : x < IZR z -> (Zfloor x < z)%Z.
Proof.
  intros Hx. apply lt_IZR. destruct (Zfloor_bound x) as [Hlo _]. lra.
Qed.

Lemma to_size_t_exact (x : R) :
  0 <= x -> x < IZR (SIZE_MAX + 1) -> to_size_t x = Done (Zfloor x).
Proof.
  intros H0 Hmax. unfold to_size_t. cbn [dtrunc Exact_double].
  rewrite (R_trunc_nonneg _ H0).
  pose proof (Zfloor_nonneg _ H0). pose proof (Zfloor_below _ _ Hmax).
  replace ((0 <=? Zfloor x)%Z && (Zfloor x <=? SIZE_MAX)%Z) with true;
    [reflexivity|].
  symmetry. apply andb_true_intro. split; apply Z.leb_le; lia.
Qed.

Lemma to_uint32_exact (x : R) :
  0 <= x -> x < IZR (UINT32_MAX + 1) -> to_uint32 x = Done (Zfloor x).
Proof.
  intros H0 Hmax. unfold to_uint32. cbn [dtrunc Exact_double].
  rewrite (R_trunc_nonneg _ H0).
  pose proof (Zfloor_nonneg _ H0). pose proof (Zfloor_below _ _ Hmax).
  replace ((0 <=? Zfloor x)%Z && (Zfloor x <=? UINT32_MAX)%Z) with true;
    [reflexivity|].
  symmetry. apply andb_true_intro. split; apply Z.leb_le; lia.
Qed.

Lemma R_ltb_lt (x y : R) : x < y -> R_ltb x y = true.
Proof. intros Hxy. unfold R_ltb. destruct (Rlt_dec x y); tauto. Qed.

Lemma R_ltb_ge (x y : R) : y <= x -> R_ltb x y = false.
Proof.
  intros Hxy. unfold R_ltb. destruct (Rlt_dec x y); [lra | reflexivity].
Qed.

Lemma R_eqb_neq (x y : R) : x <> y -> R_eqb x y = false.
Proof.
  intros Hxy. unfold R_eqb. destruct (Req_dec_T x y); [tauto | reflexivity].
Qed.

(** The floor of a quotient of integers is the integer quotient. *)
Lemma Zfloor_div (a b : Z) :
  (0 < b)%Z -> Zfloor (IZR a / IZR b) = (a / b)%Z.
Proof.
  intros Hb. apply Zfloor_eq.
  assert (HbR : 0 < IZR b) by (apply IZR_lt; exact Hb).
  pose proof (Z.mul_div_le a b Hb) as Hlo.
  pose proof (Z.mul_succ_div_gt a b Hb) as Hhi.
  apply IZR_le in Hlo. apply IZR_lt in Hhi.
  rewrite mult_IZR in Hlo. unfold Z.succ in Hhi.
  rewrite mult_IZR, plus_IZR in Hhi.
  split.
  - apply (Rmult_le_reg_r (IZR b)); [exact HbR|].
    unfold Rdiv. rewrite Rmult_assoc, Rinv_l by lra. lra.
  - apply (Rmult_lt_reg_r (IZR b)); [exact HbR|].
    unfold Rdiv. rewrite Rmult_assoc, Rinv_l by lra. lra.
Qed.
End Exact.

(** ** The density ramp *)

Lemma get_in_range (s : string) :
  forall n, (n < String.length s)%nat -> exists c, String.get n s = Some c.
Proof.
  induction s as [|a s IH]; intros n Hn; simpl in Hn.
  - lia.
  - destruct n as [|n]; simpl.
    + exists a. reflexivity.
    + apply IH. lia.
Qed.

Lemma get_is_member (s : string) :
  forall n c, String.get n s = Some c -> In c (list_ascii_of_string s).
Proof.
  induction s as [|a s IH]; intros n c Hget; simpl in Hget.
  - discriminate.
  - destruct n as [|n]; simpl.
    + left. congruence.
    + right. apply (IH n). exact Hget.
Qed.

Lemma DENSITY_get (index : Z) :
  (0 <= index < DENSITY_size)%Z ->
  String.get (Z.to_nat index) DENSITY = Some (ramp index).
Proof.
  intros Hi. unfold ramp.
  destruct (get_in_range DENSITY (Z.to_nat index)) as [c Hc].
  - unfold DENSITY_size in Hi. lia.
  - rewrite Hc. reflexivity.
Qed.

Lemma DENSITY_printable : Forall printable (list_ascii_of_string DENSITY).
Proof.
  unfold printable. apply Forall_forall. intros c Hc.
  assert (Hb : forallb (fun c => (32 <? nat_of_ascii c)%nat
                                 && (nat_of_ascii c <? 127)%nat)
                 (list_ascii_of_string DENSITY) = true)
    by (vm_compute; reflexivity).
  rewrite forallb_forall in Hb. specialize (Hb c Hc).
  apply andb_prop in Hb. destruct Hb as [H1 H2].
  apply Nat.ltb_lt in H1. apply Nat.ltb_lt in H2. lia.
Qed.

(** ** The density mapper *)

Section Mapper.
Context {D : Type} `{Double D}.

(** What is written for an index: a space from [DENSITY.size()] on, the
    ramp character below. *)
Lemma density_char_of_index (config : Configuration D) (L : D) (index : Z) :
  density_index config L = Done index ->
  (0 <= index)%Z ->
  density_char config L
  = Done (if (DENSITY_size <=? index)%Z then space else ramp index).
Proof.
  intros Hidx H0. unfold density_char. rewrite Hidx. cbn [bind].
  destruct (DENSITY_size <=? index)%Z eqn:Hle; [reflexivity|].
  apply Z.leb_gt in Hle. rewrite DENSITY_get by lia. reflexivity.
Qed.

Lemma to_size_t_nonneg (x : D) (t : Z) :
  to_size_t x = Done t -> (0 <= t <= SIZE_MAX)%Z.
Proof.
  unfold to_size_t. destruct (dtrunc x) as [t'|]; [|discriminate].
  destruct ((0 <=? t')%Z && (t' <=? SIZE_MAX)%Z) eqn:Hb; [|discriminate].
  intros Heq. injection Heq as <-. apply andb_prop in Hb.
  destruct Hb as [H1 H2]. apply Z.leb_le in H1. apply Z.leb_le in H2. lia.
Qed.
End Mapper.

Section ExactMapper.
Local Open Scope R_scope.

Lemma scaled_index_exact (m : Z) (L : R) :
  (0 <= m <= SIZE_MAX)%Z -> 0 <= L <= 1 ->
  to_size_t (IZR m * L) = Done (Zfloor (IZR m * L))
  /\ (0 <= Zfloor (IZR m * L) <= m)%Z.
Proof.
  intros [Hm0 Hm1] [HL0 HL1].
  assert (H0 : 0 <= IZR m) by (apply IZR_le; exact Hm0).
  assert (Hp0 : 0 <= IZR m * L) by (apply Rmult_le_pos; assumption).
  assert (Hp1 : IZR m * L <= IZR m) by nra.
  split.
  - apply to_size_t_exact; [exact Hp0|].
    assert (IZR m < IZR (SIZE_MAX + 1)) by (apply IZR_lt; lia). lra.
  - split; [apply Zfloor_nonneg; exact Hp0|].
    apply le_IZR. destruct (Zfloor_bound (IZR m * L)) as [Hlo _]. lra.
Qed.

Lemma wrap_size_t_range (z : Z) : (0 <= wrap_size_t z <= SIZE_MAX)%Z.
Proof.
  unfold wrap_size_t. rewrite SIZE_MAX_value.
  pose proof (Z.mod_pos_bound z (2 ^ 64) eq_refl). lia.
Qed.

Lemma wrap_size_t_small (z : Z) :
  (0 <= z <= SIZE_MAX)%Z -> wrap_size_t z = z.
Proof.
  rewrite SIZE_MAX_value. intros Hz. unfold wrap_size_t.
  apply Z.mod_small. lia.
Qed.

Lemma oriented_unit (invert : bool) (L : R) :
  0 <= L <= 1 -> 0 <= oriented invert L <= 1.
Proof. intros HL. unfold oriented. destruct invert; lra. Qed.

Lemma density_index_exact (config : Configuration R) (L : R) :
  (0 <= num_spaces config)%Z ->
  (num_spaces config + DENSITY_size - 1 <= SIZE_MAX)%Z ->
  0 <= L <= 1 ->
  density_index config L
  = Done (spec_index (num_spaces config) (inverted config) L)
  /\ (0 <= spec_index (num_spaces config) (inverted config) L
      <= DENSITY_size + num_spaces config - 1)%Z.
Proof.
  intros HP0 HP1 HL. unfold density_index, spec_index, RAMP_LENGTH.
  rewrite DENSITY_size_value in *.
  rewrite wrap_size_t_small by lia.
  cbn [of_int dsub dmul Exact_double].
  assert (Hor : 0 <= oriented (inverted config) L <= 1)
    by (apply oriented_unit; exact HL).
  unfold oriented in Hor.
  destruct (inverted config); cbn [negb];
    apply scaled_index_exact; first [lia | exact Hor].
Qed.
End ExactMapper.



(** The mapper on IEEE doubles at the ends of the luminance range: with
    padding 9 and inversion, luminance 0 gives the first ramp character; with
    padding 0 and no inversion, luminance 0 gives the last one. *)
Example density_char_heaviest :
  density_char (cfg true 80 40 (dlit 1 2 : float) 9) (of_int 0)
  = Done "@"%char.
Proof. vm_compute. reflexivity. Qed.

Example density_char_lightest :
  density_index (cfg false 80 40 (dlit 1 2 : float) 0) (of_int 0) = Done 67%Z
  /\ density_char (cfg false 80 40 (dlit 1 2 : float) 0) (of_int 0)
     = Done "`"%char.
Proof. vm_compute. split; reflexivity. Qed.

(** The fixed-block variant scales by one more: at full luminance with no
    padding it leaves the ramp where the variant modelled here still writes
    the last ramp character. *)
Example fixed_block_variant_differs :
  density_index_fixed_block (cfg true 80 40 (dlit 1 2 : float) 0) (of_int 1)
  = Done 68%Z
  /\ density_index (cfg true 80 40 (dlit 1 2 : float) 0) (of_int 1)
     = Done 67%Z.
Proof. vm_compute. split; reflexivity. Qed.







(** ** Luminance models *)

Lemma grey_within_tolerance_all (v : Z) :
  uint8 v -> grey_within_tolerance v = true.
Proof.
  intros Hv. unfold uint8 in Hv.
  assert (Hall : forallb (fun n => grey_within_tolerance (Z.of_nat n))
                   (seq 0 256) = true) by (vm_compute; reflexivity).
  rewrite forallb_forall in Hall.
  specialize (Hall (Z.to_nat v)).
  rewrite Z2Nat.id in Hall by lia.
  apply Hall. apply in_seq. lia.
Qed.

Section ExactLuminance.
Local Open Scope R_scope.

Lemma luma_exact (c : Color) :
  luma (D := R) c
  = (2126 / 10000 * IZR (red c) + 7152 / 10000 * IZR (green c)
     + 722 / 10000 * IZR (blue c)) / 255.
Proof. reflexivity. Qed.

Lemma perceived_luma_fast_exact (c : Color) :
  perceived_luma_fast (D := R) c
  = (299 / 1000 * IZR (red c) + 587 / 1000 * IZR (green c)
     + 114 / 1000 * IZR (blue c)) / 255.
Proof. reflexivity. Qed.

Lemma perceived_luma_exact (c : Color) :
  perceived_luma (D := R) c
  = sqrt (299 / 1000 * IZR (red c) * IZR (red c)
          + 587 / 1000 * IZR (green c) * IZR (green c)
          + 114 / 1000 * IZR (blue c) * IZR (blue c)) / 255.
Proof. reflexivity. Qed.

Lemma grey_exact (v : Z) :
  (0 <= v)%Z ->
  luma (D := R) (grey v) = IZR v / 255
  /\ perceived_luma_fast (D := R) (grey v) = IZR v / 255
  /\ perceived_luma (D := R) (grey v) = IZR v / 255.
Proof.
  intros Hv. assert (HvR : 0 <= IZR v) by (apply IZR_le; exact Hv).
  rewrite luma_exact, perceived_luma_fast_exact, perceived_luma_exact.
  cbn [grey red green blue].
  split; [field | split; [field|]].
  replace (299 / 1000 * IZR v * IZR v + 587 / 1000 * IZR v * IZR v
           + 114 / 1000 * IZR v * IZR v) with (IZR v * IZR v) by field.
  rewrite sqrt_square by exact HvR. reflexivity.
Qed.
End ExactLuminance.

(** C7. For every grayscale pixel with equal channels R=G=B=v, each of the
    three luminance models returns v/255: on IEEE doubles within the machine
    epsilon 2^-52 of the rational v/255, and exactly in exact arithmetic. *)
Theorem grayscale_invariance (v : Z) :
  uint8 v ->
  (float_near DBL_EPSILON (v # 255) (luma (grey v)) = true
   /\ float_near DBL_EPSILON (v # 255) (perceived_luma_fast (grey v)) = true
   /\ float_near DBL_EPSILON (v # 255) (perceived_luma (grey v)) = true)
  /\ (luma (D := R) (grey v) = (IZR v / 255)%R
      /\ perceived_luma_fast (D := R) (grey v) = (IZR v / 255)%R
      /\ perceived_luma (D := R) (grey v) = (IZR v / 255)%R).
Proof.
  intros Hv. split.
  - pose proof (grey_within_tolerance_all v Hv) as Hb.
    unfold grey_within_tolerance in Hb.
    apply andb_prop in Hb. destruct Hb as [Hb H3].
    apply andb_prop in Hb. destruct Hb as [H1 H2]. tauto.
  - apply grey_exact. unfold uint8 in Hv. lia.
Qed.

Lemma grayscale_invariance_witness :
  (float_near DBL_EPSILON (128 # 255) (luma (grey 128)) = true
   /\ float_near DBL_EPSILON (128 # 255) (perceived_luma_fast (grey 128)) = true
   /\ float_near DBL_EPSILON (128 # 255) (perceived_luma (grey 128)) = true)
  /\ (luma (D := R) (grey 128) = (128 / 255)%R
      /\ perceived_luma_fast (D := R) (grey 128) = (128 / 255)%R
      /\ perceived_luma (D := R) (grey 128) = (128 / 255)%R).
Proof.
  apply (grayscale_invariance 128).
  unfold uint8. lia.
Defined.

(** ** The region sampler *)

Lemma Zrange_In (n : nat) :
  forall lo z, In z (Zrange lo n) <-> (lo <= z < lo + Z.of_nat n)%Z.
Proof.
  induction n as [|n IH]; intros lo z; simpl Zrange.
  - simpl. lia.
  - simpl In. rewrite IH. lia.
Qed.

Lemma Zrange_length (n : nat) : forall lo, List.length (Zrange lo n) = n.
Proof.
  induction n as [|n IH]; intros lo; simpl; [reflexivity|].
  rewrite IH. reflexivity.
Qed.

Section Sampler.
Context {D : Type} `{Double D}.

Lemma accumulate_app (config : Configuration D) pixels W
    (ps qs : list (Z * Z)) :
  forall st,
    accumulate config pixels W (ps ++ qs) st
    = (st' <- accumulate config pixels W ps st ;;
       accumulate config pixels W qs st').
Proof.
  induction ps as [|[x y] ps IH]; intros st; simpl; [reflexivity|].
  destruct (read_pixel pixels (wrap_size_t (x + y * W))) as [pixel| |];
    simpl; [apply IH | reflexivity | reflexivity].
Qed.

Lemma scan_x_accumulate (config : Configuration D) pixels W y (n : nat) :
  forall x st,
    scan_x config pixels W y n x st
    = accumulate config pixels W (List.map (fun x => (x, y)) (Zrange x n)) st.
Proof.
  induction n as [|n IH]; intros x st; simpl; [reflexivity|].
  destruct (read_pixel pixels (wrap_size_t (x + y * W))) as [pixel| |];
    simpl; [apply IH | reflexivity | reflexivity].
Qed.

Lemma scan_y_accumulate (config : Configuration D) pixels region W
    (x0 x1 : Z) (n : nat) :
  to_size_t (top_left_x region) = Done x0 ->
  to_size_t (dadd (top_left_x region) (width region)) = Done x1 ->
  forall y st,
    scan_y config pixels region W n y st
    = accumulate config pixels W
        (flat_map (fun y => List.map (fun x => (x, y))
                              (Zrange x0 (Z.to_nat (Z.min W x1 - x0))))
                  (Zrange y n)) st.
Proof.
  intros Hx0 Hx1. induction n as [|n IH]; intros y st; simpl; [reflexivity|].
  rewrite Hx0, Hx1. cbn [bind].
  rewrite accumulate_app, scan_x_accumulate.
  destruct (accumulate config pixels W _ st) as [st'| |]; simpl;
    [apply IH | reflexivity | reflexivity].
Qed.

(** [average_luma] reads exactly the pixels of [region_pixels], in order. *)
Lemma average_luma_as_pass (config : Configuration D) pixels region W Hh :
  average_luma config pixels region W Hh
  = (ps <- region_pixels region W Hh ;;
     st <- accumulate config pixels W ps (of_int 0, of_int 0) ;;
     Done (mean st)).
Proof.
  unfold average_luma, region_pixels.
  destruct (to_size_t (top_left_y region)) as [y0| |]; simpl; try reflexivity.
  destruct (to_size_t (dadd (top_left_y region) (height region)))
    as [y1| |]; simpl; try reflexivity.
  destruct (Z.to_nat (Z.min Hh y1 - y0)) as [|ny] eqn:Hny.
  - simpl. destruct (deq (of_int 0) (of_int 0)); reflexivity.
  - cbn [scan_y].
    destruct (to_size_t (top_left_x region)) as [x0| |] eqn:Hx0;
      cbn [bind]; try reflexivity.
    destruct (to_size_t (dadd (top_left_x region) (width region)))
      as [x1| |] eqn:Hx1; cbn [bind]; try reflexivity.
    pose proof (scan_y_accumulate config pixels region W x0 x1 (S ny)
                  Hx0 Hx1 y0 (of_int 0, of_int 0)) as Hs.
    cbn [scan_y] in Hs. rewrite Hx0, Hx1 in Hs. cbn [bind] in Hs.
    rewrite Hs.
    destruct (accumulate config pixels W _ (of_int 0, of_int 0))
      as [[a c]| |]; simpl; try reflexivity.
    destruct (deq c (of_int 0)); reflexivity.
Qed.

(** The clipping by [std::min] keeps every visited coordinate inside the
    image. *)
Lemma region_pixels_in_bounds (region : Quad D) W Hh (ps : list (Z * Z)) :
  region_pixels region W Hh = Done ps ->
  forall x y, In (x, y) ps -> (0 <= x < W)%Z /\ (0 <= y < Hh)%Z.
Proof.
  unfold region_pixels. intros Hps x y Hin.
  destruct (to_size_t (top_left_y region)) as [y0| |] eqn:Hy0;
    cbn [bind] in Hps; try discriminate.
  destruct (to_size_t (dadd (top_left_y region) (height region)))
    as [y1| |] eqn:Hy1; cbn [bind] in Hps; try discriminate.
  destruct (Z.to_nat (Z.min Hh y1 - y0)) as [|ny] eqn:Hny.
  - apply Done_inj in Hps. subst ps. destruct Hin.
  - destruct (to_size_t (top_left_x region)) as [x0| |] eqn:Hx0;
      cbn [bind] in Hps; try discriminate.
    destruct (to_size_t (dadd (top_left_x region) (width region)))
      as [x1| |] eqn:Hx1; cbn [bind] in Hps; try discriminate.
    apply Done_inj in Hps. subst ps.
    apply in_flat_map in Hin. destruct Hin as [y' [Hy' Hin]].
    apply in_map_iff in Hin. destruct Hin as [x' [Heq Hx']].
    injection Heq as -> ->.
    apply Zrange_In in Hy'. apply Zrange_In in Hx'.
    apply to_size_t_nonneg in Hy0. apply to_size_t_nonneg in Hx0.
    lia.
Qed.

(** Reads at coordinates inside the image stay inside the buffer. *)
Lemma accumulate_total (config : Configuration D) pixels W Hh :
  (0 <= W)%Z -> (0 <= Hh)%Z ->
  Z.of_nat (List.length pixels) = (W * Hh)%Z ->
  (W * Hh <= SIZE_MAX)%Z ->
  forall ps st,
    (forall x y, In (x, y) ps -> (0 <= x < W)%Z /\ (0 <= y < Hh)%Z) ->
    exists st', accumulate config pixels W ps st = Done st'.
Proof.
  intros HW HH Hlen Hmax. induction ps as [|[x y] ps IH]; intros st Hin.
  - exists st. reflexivity.
  - simpl. destruct (Hin x y (or_introl eq_refl)) as [Hx Hy].
    assert (Hidx : (0 <= x + y * W < W * Hh)%Z) by nia.
    unfold read_pixel. rewrite wrap_size_t_small by lia.
    destruct (nth_error pixels (Z.to_nat (x + y * W))) as [pixel|] eqn:Hnth.
    + simpl. apply IH. intros x' y' Hin'. apply Hin. right. exact Hin'.
    + apply nth_error_None in Hnth. lia.
Qed.
End Sampler.

(** C9. Region aggregation is total and in-bounds: for every region whose
    bounds convert to [size_t] (its pixel set [ps] is then defined, clipped
    to the image by [std::min]), [average_luma] reads exactly the pixels
    [ps], all with coordinates in [0, W) x [0, H), never outside the
    W*H-pixel buffer, and returns a value; a region containing zero pixels
    yields luminance 0.  Holds for every arithmetic in which 0 == 0, IEEE
    doubles included. *)
Theorem average_luma_total_in_bounds {D : Type} `{Double D}
    (config : Configuration D) (pixels : list Color) (region : Quad D)
    (W Hh : Z) (ps : list (Z * Z)) :
  (0 <= W)%Z -> (0 <= Hh)%Z ->
  Z.of_nat (List.length pixels) = (W * Hh)%Z ->
  (W * Hh <= SIZE_MAX)%Z ->
  region_pixels region W Hh = Done ps ->
  deq (of_int 0) (of_int 0) = true ->
  (forall x y, In (x, y) ps -> (0 <= x < W)%Z /\ (0 <= y < Hh)%Z)
  /\ (exists st,
        accumulate config pixels W ps (of_int 0, of_int 0) = Done st
        /\ average_luma config pixels region W Hh = Done (mean st))
  /\ (ps = [] -> average_luma config pixels region W Hh = Done (of_int 0)).
Proof.
  intros HW HH Hlen Hmax Hps Hzero.
  pose proof (region_pixels_in_bounds region W Hh ps Hps) as Hin.
  split; [exact Hin|].
  destruct (accumulate_total config pixels W Hh HW HH Hlen Hmax ps
              (of_int 0, of_int 0) Hin) as [st Hst].
  split.
  - exists st. split; [exact Hst|].
    rewrite average_luma_as_pass, Hps. cbn [bind]. rewrite Hst. reflexivity.
  - intros ->. rewrite average_luma_as_pass, Hps. simpl.
    rewrite Hzero. reflexivity.
Qed.

Lemma average_luma_total_in_bounds_witness :
  (forall x y, In (x, y) [(1, 0)]%Z -> (0 <= x < 2)%Z /\ (0 <= y < 2)%Z)
  /\ (exists st,
        accumulate (cfg false 2 2 (dlit 1 1 : float) 9) (solid black 2 2) 2
          [(1, 0)]%Z (of_int 0, of_int 0) = Done st
        /\ average_luma (cfg false 2 2 (dlit 1 1 : float) 9) (solid black 2 2)
             {| top_left_x := of_int 1; top_left_y := of_int 0;
                width := of_int 1; height := of_int 1 |} 2 2
           = Done (mean st))
  /\ ([(1, 0)]%Z = [] ->
      average_luma (cfg false 2 2 (dlit 1 1 : float) 9) (solid black 2 2)
        {| top_left_x := of_int 1; top_left_y := of_int 0;
           width := of_int 1; height := of_int 1 |} 2 2
      = Done (of_int 0)).
Proof.
  apply (average_luma_total_in_bounds
           (cfg false 2 2 (dlit 1 1 : float) 9) (solid black 2 2)
           {| top_left_x := of_int 1; top_left_y := of_int 0;
              width := of_int 1; height := of_int 1 |} 2 2 [(1, 0)]%Z).
  - lia.
  - lia.
  - reflexivity.
  - vm_compute. discriminate.
  - vm_compute. reflexivity.
  - vm_compute. reflexivity.
Defined.

(** A region without pixels on IEEE doubles: with two columns on a one-pixel
    image, the left region is empty and aggregates to 0. *)
Example empty_region_yields_zero :
  region_pixels {| top_left_x := of_int 0 : float; top_left_y := of_int 0;
                   width := dlit 1 2; height := of_int 1 |} 1 1 = Done []
  /\ average_luma (cfg false 2 1 (dlit 1 1 : float) 9) (solid white 1 1)
       {| top_left_x := of_int 0; top_left_y := of_int 0;
          width := dlit 1 2; height := of_int 1 |} 1 1
     = Done (of_int 0).
Proof. vm_compute. split; reflexivity. Qed.

(** ** Luminance and index ranges *)

Ltac exact_ops :=
  cbn [of_int dadd dsub dmul ddiv dsqrt dlt deq dtrunc Exact_double] in *.

Section ExactSampler.
Local Open Scope R_scope.

Lemma luma_unit (c : Color) : Color_ok c -> 0 <= luma (D := R) c <= 1.
Proof.
  intros (Hr & Hg & Hb). unfold uint8 in *. rewrite luma_exact.
  assert (0 <= IZR (red c) <= 255) by (split; apply IZR_le; lia).
  assert (0 <= IZR (green c) <= 255) by (split; apply IZR_le; lia).
  assert (0 <= IZR (blue c) <= 255) by (split; apply IZR_le; lia).
  lra.
Qed.

Lemma perceived_luma_fast_unit (c : Color) :
  Color_ok c -> 0 <= perceived_luma_fast (D := R) c <= 1.
Proof.
  intros (Hr & Hg & Hb). unfold uint8 in *. rewrite perceived_luma_fast_exact.
  assert (0 <= IZR (red c) <= 255) by (split; apply IZR_le; lia).
  assert (0 <= IZR (green c) <= 255) by (split; apply IZR_le; lia).
  assert (0 <= IZR (blue c) <= 255) by (split; apply IZR_le; lia).
  lra.
Qed.

Lemma perceived_luma_unit (c : Color) :
  Color_ok c -> 0 <= perceived_luma (D := R) c <= 1.
Proof.
  intros (Hr & Hg & Hb). unfold uint8 in *. rewrite perceived_luma_exact.
  assert (Hr' : 0 <= IZR (red c) <= 255) by (split; apply IZR_le; lia).
  assert (Hg' : 0 <= IZR (green c) <= 255) by (split; apply IZR_le; lia).
  assert (Hb' : 0 <= IZR (blue c) <= 255) by (split; apply IZR_le; lia).
  set (q := 299 / 1000 * IZR (red c) * IZR (red c)
            + 587 / 1000 * IZR (green c) * IZR (green c)
            + 114 / 1000 * IZR (blue c) * IZR (blue c)).
  assert (Hq : 0 <= q <= 255 * 255) by (unfold q; nra).
  assert (Hs0 : 0 <= sqrt q) by apply sqrt_pos.
  assert (Hs1 : sqrt q <= 255).
  { rewrite <- (sqrt_square 255) by lra. apply sqrt_le_1_alt. lra. }
  lra.
Qed.

Lemma pixel_luma_unit (config : Configuration R) (c : Color) :
  Color_ok c -> 0 <= pixel_luma config c <= 1.
Proof.
  intros Hc. unfold pixel_luma.
  destruct (alt config); [apply perceived_luma_fast_unit; exact Hc|].
  destruct (perceived config);
    [apply perceived_luma_unit | apply luma_unit]; exact Hc.
Qed.

(** The accumulator never exceeds the count. *)
Lemma accumulate_bounds (config : Configuration R) pixels W :
  Forall Color_ok pixels ->
  forall ps st st',
    accumulate config pixels W ps st = Done st' ->
    0 <= fst st <= snd st ->
    0 <= fst st' <= snd st'
    /\ snd st' = snd st + INR (List.length ps).
Proof.
  intros Hok. induction ps as [|[x y] ps IH]; intros st st' Hacc Hst.
  - simpl in Hacc. apply Done_inj in Hacc. subst st'. simpl. split; lra.
  - simpl in Hacc. unfold read_pixel in Hacc.
    destruct (nth_error pixels (Z.to_nat (wrap_size_t (x + y * W))))
      as [pixel|] eqn:Hnth; simpl in Hacc; [|discriminate].
    assert (Hpix : Color_ok pixel).
    { rewrite Forall_forall in Hok. apply Hok.
      apply (nth_error_In _ _ Hnth). }
    pose proof (pixel_luma_unit config pixel Hpix) as Hl.
    apply IH in Hacc.
    + destruct Hacc as [Hb Hc]. split; [exact Hb|].
      rewrite Hc. cbn [fst snd]. exact_ops.
      change (List.length ((x, y) :: ps)) with (S (List.length ps)).
      rewrite S_INR. lra.
    + cbn [fst snd]. exact_ops. lra.
Qed.

Lemma mean_unit (a n : R) : 0 <= a <= n -> 0 <= mean (a, n) <= 1.
Proof.
  intros Han. unfold mean. exact_ops. unfold R_eqb.
  destruct (Req_dec_T n 0) as [Hn|Hn]; [lra|].
  assert (Hpos : 0 < n) by lra.
  split.
  - apply Rmult_le_reg_r with n; [exact Hpos|].
    unfold Rdiv. rewrite Rmult_assoc, Rinv_l by lra. lra.
  - apply Rmult_le_reg_r with n; [exact Hpos|].
    unfold Rdiv. rewrite Rmult_assoc, Rinv_l by lra. lra.
Qed.

Lemma average_luma_unit (config : Configuration R) pixels region W Hh L :
  Forall Color_ok pixels ->
  average_luma config pixels region W Hh = Done L ->
  0 <= L <= 1.
Proof.
  intros Hok Havg. rewrite average_luma_as_pass in Havg.
  apply bind_Done in Havg. destruct Havg as [ps [_ Havg]].
  apply bind_Done in Havg. destruct Havg as [[a n] [Hacc Havg]].
  apply Done_inj in Havg. subst L.
  apply (accumulate_bounds config pixels W Hok) in Hacc.
  - apply mean_unit. cbn [fst snd] in Hacc. tauto.
  - cbn [fst snd]. exact_ops. lra.
Qed.

Lemma region_pixels_exact (region : Quad R) (W Hh : Z) :
  region_sane region ->
  region_pixels region W Hh
  = Done (flat_map (fun y => List.map (fun x => (x, y)) (x_range region W))
            (y_range region Hh)).
Proof.
  intros (Hx & Hy & Hw & Hh' & Hxw & Hyh).
  unfold region_pixels, x_range, y_range. exact_ops.
  rewrite (to_size_t_exact (top_left_y region)) by lra.
  rewrite (to_size_t_exact (top_left_y region + height region)) by lra.
  rewrite (to_size_t_exact (top_left_x region)) by lra.
  rewrite (to_size_t_exact (top_left_x region + width region)) by lra.
  cbn [bind].
  destruct (Z.to_nat (Z.min Hh (Zfloor (top_left_y region + height region))
                      - Zfloor (top_left_y region))); reflexivity.
Qed.
End ExactSampler.

Section Alphabet.
Context {D : Type} `{Double D}.

Lemma average_luma_defined (config : Configuration D) pixels region W Hh ps :
  (0 <= W)%Z -> (0 <= Hh)%Z ->
  Z.of_nat (List.length pixels) = (W * Hh)%Z ->
  (W * Hh <= SIZE_MAX)%Z ->
  region_pixels region W Hh = Done ps ->
  exists st,
    accumulate config pixels W ps (of_int 0, of_int 0) = Done st
    /\ average_luma config pixels region W Hh = Done (mean st).
Proof.
  intros HW HH Hlen Hmax Hps.
  pose proof (region_pixels_in_bounds region W Hh ps Hps) as Hin.
  destruct (accumulate_total config pixels W Hh HW HH Hlen Hmax ps
              (of_int 0, of_int 0) Hin) as [st Hst].
  exists st. split; [exact Hst|].
  rewrite average_luma_as_pass, Hps. cbn [bind]. rewrite Hst. reflexivity.
Qed.

Lemma density_char_alphabet (config : Configuration D) (L : D) (c : ascii) :
  density_char config L = Done c -> ramp_or_space c.
Proof.
  unfold density_char. intros Hc.
  apply bind_Done in Hc. destruct Hc as [index [_ Hc]].
  destruct (DENSITY_size <=? index)%Z.
  - apply Done_inj in Hc. left. symmetry. exact Hc.
  - destruct (String.get (Z.to_nat index) DENSITY) as [c'|] eqn:Hget;
      simpl in Hc; [|discriminate].
    apply Done_inj in Hc. subst c'. right.
    apply (get_is_member DENSITY (Z.to_nat index)). exact Hget.
Qed.

Lemma region_char_alphabet (config : Configuration D) pixels W Hh q c :
  region_char config pixels W Hh q = Done c -> ramp_or_space c.
Proof.
  unfold region_char. intros Hc.
  apply bind_Done in Hc. destruct Hc as [L [_ Hc]].
  apply (density_char_alphabet config L). exact Hc.
Qed.

Lemma line_from_alphabet (config : Configuration D) pixels W Hh qw qh y :
  forall fuel x line,
    line_from fuel config pixels W Hh qw qh y x = Done line ->
    Forall ramp_or_space line.
Proof.
  induction fuel as [|fuel IH]; intros x line Hl; simpl in Hl.
  - discriminate.
  - destruct (dlt x (of_int W)).
    + apply bind_Done in Hl. destruct Hl as [c [Hc Hl]].
      apply bind_Done in Hl. destruct Hl as [rest [Hrest Hl]].
      apply Done_inj in Hl. subst line. constructor.
      * apply (region_char_alphabet config pixels W Hh _ c Hc).
      * apply (IH _ _ Hrest).
    + apply Done_inj in Hl. subst line. constructor.
Qed.

Lemma lines_from_alphabet (config : Configuration D) pixels W Hh qw qh fuel :
  forall n y text,
    lines_from fuel n config pixels W Hh qw qh y = Done text ->
    Forall output_char text.
Proof.
  induction n as [|n IH]; intros y text Ht; simpl in Ht.
  - discriminate.
  - destruct (dlt y (of_int Hh)).
    + apply bind_Done in Ht. destruct Ht as [line [Hline Ht]].
      apply bind_Done in Ht. destruct Ht as [rest [Hrest Ht]].
      apply Done_inj in Ht. subst text.
      apply Forall_app. split.
      * apply line_from_alphabet in Hline.
        apply (Forall_impl _ (fun c Hc => or_intror Hc) Hline).
      * constructor; [left; reflexivity | apply (IH _ _ Hrest)].
    + apply Done_inj in Ht. subst text. constructor.
Qed.

Lemma doAsciiConversion_alphabet (config : Configuration D) pixels W Hh
    fuel text :
  doAsciiConversion fuel config pixels W Hh = Done text ->
  Forall output_char text.
Proof. unfold doAsciiConversion. apply lines_from_alphabet. Qed.
End Alphabet.

Lemma density_index_range (config : Configuration R) (L : R) :
  (0 <= num_spaces config)%Z ->
  (0 <= L <= 1)%R ->
  exists i : Z,
    density_index config L = Done i
    /\ (0 <= i <= RAMP_LENGTH + num_spaces config - 1)%Z.
Proof.
  intros HP HL. unfold density_index, RAMP_LENGTH. exact_ops.
  set (m := (DENSITY_size + num_spaces config - 1)%Z).
  assert (Hm : (0 <= m)%Z) by (unfold m; rewrite DENSITY_size_value; lia).
  pose proof (wrap_size_t_range m) as Hw.
  assert (Hle : (wrap_size_t m <= m)%Z)
    by (unfold wrap_size_t; apply Z.mod_le; lia).
  assert (Hor : (0 <= oriented (inverted config) L <= 1)%R)
    by (apply oriented_unit; exact HL).
  unfold oriented in Hor.
  destruct (inverted config); cbn [negb];
    destruct (scaled_index_exact (wrap_size_t m) _ Hw Hor) as [E Rg];
    eexists; (split; [exact E | lia]).
Qed.



(** ** Columns and rows normalisation *)


Section ExactNormalization.
Local Open Scope R_scope.

Lemma Zceil_div_not_exact (a b : Z) :
  (0 < b)%Z -> (a mod b <> 0)%Z ->
  Zceil (IZR a / IZR b) = (a / b + 1)%Z.
Proof.
  intros Hb Hmod. apply Zceil_eq.
  assert (HbR : 0 < IZR b) by (apply IZR_lt; exact Hb).
  pose proof (Z.div_mod a b ltac:(lia)) as Hdm.
  pose proof (Z.mod_pos_bound a b Hb) as Hbound.
  assert (Hr : 0 < IZR (a mod b) < IZR b)
    by (split; apply IZR_lt; lia).
  assert (Ha : IZR a = IZR b * IZR (a / b) + IZR (a mod b))
    by (rewrite <- mult_IZR, <- plus_IZR; f_equal; exact Hdm).
  rewrite plus_IZR. split.
  - apply Rmult_lt_reg_r with (IZR b); [exact HbR|].
    unfold Rdiv. rewrite Rmult_assoc, Rinv_l by lra. nra.
  - apply Rmult_le_reg_r with (IZR b); [exact HbR|].
    unfold Rdiv. rewrite Rmult_assoc, Rinv_l by lra. nra.
Qed.

Lemma normalization_rows_exact (config : Configuration R) (W Hh : Z) :
  cols config <> UINT32_MAX ->
  rows config = UINT32_MAX ->
  (0 <= cols config)%Z -> (0 < W)%Z -> (0 <= Hh)%Z ->
  (cols config * Hh / W + 1 <= UINT32_MAX)%Z ->
  normalization config W Hh
  = Done (set_rows config (cols config * Hh / W + 1)).
Proof.
  intros Hc Hr Hc0 HW HH Hfit. unfold normalization.
  apply Z.eqb_neq in Hc. rewrite Hc. cbn [andb].
  apply Z.eqb_eq in Hr. rewrite Hr. exact_ops.
  rewrite <- mult_IZR.
  assert (Hq0 : 0 <= IZR (cols config * Hh) / IZR W).
  { apply Rmult_le_pos; [apply IZR_le; nia|].
    apply Rlt_le, Rinv_0_lt_compat, IZR_lt. exact HW. }
  assert (Hfl : Zfloor (IZR (cols config * Hh) / IZR W + 1)
                = (cols config * Hh / W + 1)%Z)
    by (rewrite Zfloor_addz, Zfloor_div by exact HW; reflexivity).
  rewrite to_uint32_exact.
  - rewrite Hfl. reflexivity.
  - lra.
  - destruct (Zfloor_bound (IZR (cols config * Hh) / IZR W + 1)) as [_ Hhi].
    rewrite Hfl in Hhi.
    assert (IZR (cols config * Hh / W + 1) + 1 <= IZR (UINT32_MAX + 1)).
    { rewrite <- (plus_IZR _ 1). apply IZR_le. lia. }
    lra.
Qed.
End ExactNormalization.



(** [main] on the 100x200 example: 101 rows at font ratio 0.5 are rendered
    as 51 lines of 50 characters (IEEE doubles). *)
Example main_100_200_50 :
  main 60 (cfg false 50 UINT32_MAX (dlit 1 2 : float) 9)
    (solid white 100 200) 100 200
  = Done (unlines (repeat (repeat "@"%char 50) 51)).
Proof. vm_compute. reflexivity. Qed.

(** ** Counting pixels in lists of coordinates *)

Lemma occurrences_app (p : Z * Z) (l1 l2 : list (Z * Z)) :
  occurrences p (l1 ++ l2) = (occurrences p l1 + occurrences p l2)%nat.
Proof. unfold occurrences. rewrite filter_app, length_app. reflexivity. Qed.

Lemma Zcount_app (z : Z) (l1 l2 : list Z) :
  Zcount z (l1 ++ l2) = (Zcount z l1 + Zcount z l2)%nat.
Proof. unfold Zcount. rewrite filter_app, length_app. reflexivity. Qed.

Lemma occurrences_concat_map {A : Type} (F : A -> list (Z * Z)) (p : Z * Z)
    (l : list A) :
  occurrences p (List.concat (List.map F l))
  = list_sum (List.map (fun a => occurrences p (F a)) l).
Proof.
  induction l as [|a l IH]; simpl; [reflexivity|].
  rewrite occurrences_app, IH. reflexivity.
Qed.

Lemma Zcount_flat_map {A : Type} (F : A -> list Z) (z : Z) (l : list A) :
  Zcount z (flat_map F l) = list_sum (List.map (fun a => Zcount z (F a)) l).
Proof.
  induction l as [|a l IH]; simpl; [reflexivity|].
  rewrite Zcount_app, IH. reflexivity.
Qed.

Lemma occurrences_cons (p q : Z * Z) (l : list (Z * Z)) :
  occurrences p (q :: l)
  = ((if same_pixel p q then 1 else 0) + occurrences p l)%nat.
Proof. unfold occurrences. simpl. destruct (same_pixel p q); reflexivity. Qed.

Lemma Zcount_cons (z z' : Z) (l : list Z) :
  Zcount z (z' :: l) = ((if (z =? z')%Z then 1 else 0) + Zcount z l)%nat.
Proof. unfold Zcount. simpl. destruct (z =? z')%Z; reflexivity. Qed.

Lemma occurrences_row (x y y' : Z) (xs : list Z) :
  occurrences (x, y) (List.map (fun x' => (x', y')) xs)
  = if (y =? y')%Z then Zcount x xs else 0%nat.
Proof.
  induction xs as [|x' xs IH].
  - simpl. destruct (y =? y')%Z; reflexivity.
  - cbn [List.map]. rewrite occurrences_cons, Zcount_cons, IH.
    unfold same_pixel. cbn [fst snd].
    destruct (x =? x')%Z, (y =? y')%Z; reflexivity.
Qed.

Lemma occurrences_product (x y : Z) (xs ys : list Z) :
  occurrences (x, y)
    (flat_map (fun y' => List.map (fun x' => (x', y')) xs) ys)
  = (Zcount x xs * Zcount y ys)%nat.
Proof.
  induction ys as [|y' ys IH].
  - simpl. unfold occurrences, Zcount. simpl. lia.
  - cbn [flat_map].
    rewrite occurrences_app, occurrences_row, IH, Zcount_cons.
    destruct (y =? y')%Z; lia.
Qed.

Lemma Zcount_Zrange (z : Z) (n : nat) :
  forall lo,
    Zcount z (Zrange lo n)
    = if ((lo <=? z) && (z <? lo + Z.of_nat n))%Z then 1%nat else 0%nat.
Proof.
  induction n as [|n IH]; intros lo.
  - cbn [Zrange]. unfold Zcount. cbn [List.filter List.length].
    destruct (lo <=? z)%Z eqn:H1, (z <? lo + Z.of_nat 0)%Z eqn:H2;
      try reflexivity.
    apply Z.leb_le in H1. apply Z.ltb_lt in H2. lia.
  - cbn [Zrange]. rewrite Zcount_cons, IH.
    destruct (z =? lo)%Z eqn:E0, (lo + 1 <=? z)%Z eqn:E1,
             (z <? lo + 1 + Z.of_nat n)%Z eqn:E2,
             (lo <=? z)%Z eqn:E3, (z <? lo + Z.of_nat (S n))%Z eqn:E4;
      cbn [andb]; try reflexivity;
      rewrite ?Z.eqb_eq, ?Z.eqb_neq, ?Z.leb_le, ?Z.leb_gt,
              ?Z.ltb_lt, ?Z.ltb_ge in *; lia.
Qed.

Lemma Zrange_app (n1 n2 : nat) :
  forall lo,
    Zrange lo n1 ++ Zrange (lo + Z.of_nat n1) n2 = Zrange lo (n1 + n2).
Proof.
  induction n1 as [|n1 IH]; intros lo.
  - simpl. rewrite Z.add_0_r. reflexivity.
  - change (Zrange lo (S n1 + n2)) with (lo :: Zrange (lo + 1) (n1 + n2)).
    change (Zrange lo (S n1)) with (lo :: Zrange (lo + 1) n1).
    rewrite <- IH. simpl. do 3 f_equal. lia.
Qed.

(** Clipped intervals between the successive terms of a non-decreasing
    sequence tile the clipped interval between its ends. *)
Lemma clipped_tiling (a : nat -> Z) (W : Z) :
  (forall k, (a k <= a (S k))%Z) ->
  forall n,
    flat_map (fun k => Zrange (a k) (Z.to_nat (Z.min W (a (S k)) - a k)))
      (seq 0 n)
    = Zrange (a 0%nat) (Z.to_nat (Z.min W (a n) - a 0%nat)).
Proof.
  intros Hmono.
  assert (Hle : forall n, (a 0%nat <= a n)%Z).
  { induction n as [|n IHn]; [lia|]. specialize (Hmono n). lia. }
  induction n as [|n IH].
  - simpl. replace (Z.to_nat (Z.min W (a 0%nat) - a 0%nat)) with 0%nat by lia.
    reflexivity.
  - rewrite seq_S, flat_map_app, IH. simpl. rewrite app_nil_r.
    specialize (Hmono n). specialize (Hle n).
    destruct (Z_le_gt_dec (a n) W) as [HnW | HnW].
    + replace (Z.to_nat (Z.min W (a (S n)) - a 0%nat))
        with (Z.to_nat (Z.min W (a n) - a 0%nat)
              + Z.to_nat (Z.min W (a (S n)) - a n))%nat by lia.
      rewrite <- Zrange_app. do 2 f_equal. lia.
    + replace (Z.to_nat (Z.min W (a (S n)) - a n)) with 0%nat by lia.
      simpl. rewrite app_nil_r. f_equal. lia.
Qed.

Lemma list_sum_map_mul_r {A : Type} (f : A -> nat) (c : nat) (l : list A) :
  list_sum (List.map (fun a => f a * c)%nat l)
  = (list_sum (List.map f l) * c)%nat.
Proof. induction l as [|a l IH]; simpl; [reflexivity | rewrite IH; lia]. Qed.

Lemma list_sum_map_mul_l {A : Type} (f : A -> nat) (c : nat) (l : list A) :
  list_sum (List.map (fun a => c * f a)%nat l)
  = (c * list_sum (List.map f l))%nat.
Proof. induction l as [|a l IH]; simpl; [lia | rewrite IH; lia]. Qed.

Lemma list_sum_flat_map {A B : Type} (G : A -> list B) (h : B -> nat)
    (l : list A) :
  list_sum (List.map h (flat_map G l))
  = list_sum (List.map (fun a => list_sum (List.map h (G a))) l).
Proof.
  induction l as [|a l IH]; simpl; [reflexivity|].
  rewrite map_app, list_sum_app, IH. reflexivity.
Qed.

(** ** The renderer in exact arithmetic *)

Lemma newline_not_ramp_or_space : ~ ramp_or_space newline.
Proof.
  intros [Hs | Hin]; [discriminate|].
  assert (Hb : forallb (fun c => negb (Ascii.eqb c newline))
                 (list_ascii_of_string DENSITY) = true)
    by (vm_compute; reflexivity).
  rewrite forallb_forall in Hb. specialize (Hb newline Hin).
  rewrite Ascii.eqb_refl in Hb. discriminate.
Qed.

Lemma unlines_cons (l : list ascii) (ls : list (list ascii)) :
  unlines (l :: ls) = l ++ newline :: unlines ls.
Proof.
  unfold unlines. simpl. rewrite <- app_assoc. reflexivity.
Qed.

Section ExactRenderer.
Local Open Scope R_scope.

Variable config : Configuration R.
Variables W Hh : Z.

Hypothesis HW : (0 < W <= INT_MAX)%Z.
Hypothesis HH : (0 < Hh <= INT_MAX)%Z.
Hypothesis HC : (1 <= cols config)%Z.
Hypothesis Hrf : 0 < IZR (rows config) * font_ratio config.
Hypothesis Hfit :
  IZR Hh <= IZR (rows config) * font_ratio config * IZR (2 ^ 32).

Let qw : R := IZR W / IZR (cols config).
Let qh : R := IZR Hh / (IZR (rows config) * font_ratio config).
Let Cn : nat := Z.to_nat (cols config).

Lemma qw_pos : 0 < qw.
Proof.
  unfold qw. apply Rdiv_lt_0_compat; apply IZR_lt; lia.
Qed.

Lemma qh_pos : 0 < qh.
Proof.
  unfold qh. apply Rdiv_lt_0_compat; [apply IZR_lt; lia | exact Hrf].
Qed.

Lemma qw_times_cols : IZR (cols config) * qw = IZR W.
Proof.
  unfold qw. field. apply not_0_IZR. lia.
Qed.

Lemma qh_times_rows : IZR (rows config) * font_ratio config * qh = IZR Hh.
Proof.
  unfold qh. pose proof Hrf as Hpos.
  set (rf := IZR (rows config) * font_ratio config) in *.
  field. lra.
Qed.

Lemma qw_le_W : qw <= IZR W.
Proof.
  pose proof qw_pos. pose proof qw_times_cols as Hq.
  assert (1 <= IZR (cols config)) by (apply IZR_le; exact HC). nra.
Qed.

Lemma qh_bound : qh <= IZR (2 ^ 32).
Proof.
  pose proof qh_times_rows as Hq. pose proof qh_pos as Hp.
  apply Rmult_le_reg_l with (IZR (rows config) * font_ratio config);
    [exact Hrf|]. rewrite Hq. lra.
Qed.

Lemma INR_Cn : INR Cn = IZR (cols config).
Proof. unfold Cn. rewrite INR_IZR_INZ, Z2Nat.id by lia. reflexivity. Qed.

(** The inner loop goes on exactly while the column number is below
    [cols]. *)
Lemma column_in_image (k : nat) : (k < Cn)%nat -> INR k * qw < IZR W.
Proof.
  intros Hk. rewrite <- qw_times_cols, <- INR_Cn.
  apply Rmult_lt_compat_r; [exact qw_pos | apply lt_INR; exact Hk].
Qed.

Lemma column_past_image : INR Cn * qw = IZR W.
Proof. rewrite INR_Cn. exact qw_times_cols. Qed.

(** The outer loop goes on exactly while the line number is below
    ceil(rows * font_ratio). *)
Lemma line_count_pos : (0 < line_count config)%nat.
Proof.
  unfold line_count.
  destruct (Zceil_bound (IZR (rows config) * font_ratio config)) as [_ Hhi].
  assert (0 < IZR (Zceil (IZR (rows config) * font_ratio config))) by lra.
  apply lt_IZR in H. lia.
Qed.

Lemma INR_line_count :
  INR (line_count config) = IZR (Zceil (IZR (rows config) * font_ratio config)).
Proof.
  pose proof line_count_pos as Hpos. unfold line_count in *.
  rewrite INR_IZR_INZ, Z2Nat.id by lia. reflexivity.
Qed.

Lemma line_in_image (j : nat) :
  (j < line_count config)%nat -> INR j * qh < IZR Hh.
Proof.
  intros Hj. rewrite <- qh_times_rows.
  apply Rmult_lt_compat_r; [exact qh_pos|].
  destruct (Zceil_bound (IZR (rows config) * font_ratio config)) as [Hlo _].
  rewrite <- INR_line_count in Hlo.
  assert (INR j + 1 <= INR (line_count config)).
  { rewrite <- S_INR. apply le_INR. lia. }
  lra.
Qed.

Lemma line_past_image : IZR Hh <= INR (line_count config) * qh.
Proof.
  rewrite <- qh_times_rows at 1.
  apply Rmult_le_compat_r; [apply Rlt_le, qh_pos|].
  destruct (Zceil_bound (IZR (rows config) * font_ratio config)) as [_ Hhi].
  rewrite INR_line_count. exact Hhi.
Qed.

Lemma grid_quad_sane (j k : nat) :
  (j < line_count config)%nat -> (k < Cn)%nat ->
  region_sane (grid_quad config W Hh j k).
Proof.
  intros Hj Hk. unfold region_sane, grid_quad.
  cbn [top_left_x top_left_y width height]. fold qw qh.
  pose proof qw_pos. pose proof qh_pos. pose proof qw_le_W. pose proof qh_bound.
  pose proof (column_in_image k Hk). pose proof (line_in_image j Hj).
  pose proof (pos_INR k). pose proof (pos_INR j).
  assert (IZR W <= IZR INT_MAX) by (apply IZR_le; lia).
  assert (IZR Hh <= IZR INT_MAX) by (apply IZR_le; lia).
  unfold INT_MAX in *. rewrite SIZE_MAX_value.
  simpl (2 ^ 31 - 1)%Z in *. simpl (2 ^ 32)%Z in *.
  simpl (18446744073709551615 + 1)%Z.
  repeat split; try nra; lra.
Qed.
(** *** The sampling regions tile the image *)

Lemma regions_line_exact (j : nat) :
  forall m k fuel,
    (k + m = Cn)%nat -> (m < fuel)%nat ->
    regions_line fuel W qw qh (INR j * qh) (INR k * qw)
    = List.map (fun k => grid_quad config W Hh j k) (seq k m).
Proof.
  induction m as [|m IH]; intros k fuel Hk Hfuel;
    (destruct fuel as [|fuel]; [lia|]); cbn [regions_line]; exact_ops.
  - replace k with Cn by lia.
    rewrite R_ltb_ge by (rewrite column_past_image; lra). reflexivity.
  - rewrite R_ltb_lt by (apply column_in_image; lia).
    replace (INR k * qw + qw) with (INR (S k) * qw)
      by (rewrite S_INR; ring).
    rewrite IH by lia. reflexivity.
Qed.

Lemma regions_from_exact (fuel : nat) :
  (Cn < fuel)%nat ->
  forall m j n,
    (j + m = line_count config)%nat -> (m < n)%nat ->
    regions_from fuel n W Hh qw qh (INR j * qh)
    = flat_map
        (fun j => List.map (fun k => grid_quad config W Hh j k) (seq 0 Cn))
        (seq j m).
Proof.
  intros Hfuel. induction m as [|m IH]; intros j n Hj Hn;
    (destruct n as [|n]; [lia|]); cbn [regions_from]; exact_ops.
  - replace j with (line_count config) by lia.
    rewrite R_ltb_ge by exact line_past_image. reflexivity.
  - rewrite R_ltb_lt by (apply line_in_image; lia).
    replace 0 with (INR 0 * qw) by (simpl; ring).
    rewrite (regions_line_exact j Cn 0 fuel) by lia.
    replace (INR j * qh + qh) with (INR (S j) * qh)
      by (rewrite S_INR; ring).
    rewrite IH by lia. reflexivity.
Qed.

Lemma sampling_regions_exact (fuel : nat) :
  (Cn < fuel)%nat -> (line_count config < fuel)%nat ->
  sampling_regions fuel config W Hh = grid_regions config W Hh.
Proof.
  intros HfC Hfn. unfold sampling_regions. exact_ops. fold qw qh.
  replace 0 with (INR 0 * qh) by (simpl; ring).
  rewrite (regions_from_exact fuel HfC (line_count config) 0 fuel) by lia.
  reflexivity.
Qed.

Lemma grid_regions_sane (q : Quad R) :
  In q (grid_regions config W Hh) -> region_sane q.
Proof.
  unfold grid_regions. fold Cn. intros Hq.
  apply in_flat_map in Hq. destruct Hq as [j [Hj Hq]].
  apply in_map_iff in Hq. destruct Hq as [k [<- Hk]].
  apply in_seq in Hj. apply in_seq in Hk.
  apply grid_quad_sane; lia.
Qed.

Lemma grid_regions_length :
  List.length (grid_regions config W Hh) = (line_count config * Cn)%nat.
Proof.
  unfold grid_regions. fold Cn. rewrite length_flat_map.
  rewrite (map_ext _ (fun _ => Cn))
    by (intros j; rewrite length_map, length_seq; reflexivity).
  assert (Hgen : forall l : list nat,
             list_sum (List.map (fun _ => Cn) l) = (List.length l * Cn)%nat).
  { induction l as [|a l IH]; simpl; [reflexivity | rewrite IH; reflexivity]. }
  rewrite Hgen, length_seq. reflexivity.
Qed.

Lemma x_tiles (j : nat) :
  flat_map (fun k => x_range (grid_quad config W Hh j k) W) (seq 0 Cn)
  = Zrange 0 (Z.to_nat W).
Proof.
  rewrite (flat_map_ext _
             (fun k => Zrange (Zfloor (INR k * qw))
                         (Z.to_nat (Z.min W (Zfloor (INR (S k) * qw))
                                    - Zfloor (INR k * qw))))).
  - rewrite (clipped_tiling (fun k => Zfloor (INR k * qw)) W).
    + rewrite column_past_image, ZfloorZ.
      replace (INR 0 * qw) with (IZR 0) by (simpl; ring).
      rewrite ZfloorZ. f_equal. lia.
    + intros k. apply Zfloor_le. rewrite S_INR.
      pose proof qw_pos. pose proof (pos_INR k). nra.
  - intros k. unfold x_range, grid_quad.
    cbn [top_left_x top_left_y width height]. fold qw.
    replace (INR k * qw + qw) with (INR (S k) * qw)
      by (rewrite S_INR; ring).
    reflexivity.
Qed.

Lemma y_tiles (k : nat) :
  flat_map (fun j => y_range (grid_quad config W Hh j k) Hh)
    (seq 0 (line_count config))
  = Zrange 0 (Z.to_nat Hh).
Proof.
  rewrite (flat_map_ext _
             (fun j => Zrange (Zfloor (INR j * qh))
                         (Z.to_nat (Z.min Hh (Zfloor (INR (S j) * qh))
                                    - Zfloor (INR j * qh))))).
  - rewrite (clipped_tiling (fun j => Zfloor (INR j * qh)) Hh).
    + replace (INR 0 * qh) with (IZR 0) by (simpl; ring).
      rewrite ZfloorZ.
      pose proof (Zfloor_lub Hh _ line_past_image) as Hend.
      f_equal. lia.
    + intros j. apply Zfloor_le. rewrite S_INR.
      pose proof qh_pos. pose proof (pos_INR j). nra.
  - intros j. unfold y_range, grid_quad.
    cbn [top_left_x top_left_y width height]. fold qh.
    replace (INR j * qh + qh) with (INR (S j) * qh)
      by (rewrite S_INR; ring).
    reflexivity.
Qed.

Lemma region_occurrences (x y : Z) (j k : nat) :
  occurrences (x, y) (region_pixel_list W Hh (grid_quad config W Hh j k))
  = (Zcount x (x_range (grid_quad config W Hh 0 k) W)
     * Zcount y (y_range (grid_quad config W Hh j 0) Hh))%nat.
Proof.
  unfold region_pixel_list. rewrite occurrences_product. reflexivity.
Qed.

Lemma grid_occurrences (x y : Z) :
  occurrences (x, y)
    (List.concat (List.map (region_pixel_list W Hh) (grid_regions config W Hh)))
  = (Zcount x (Zrange 0 (Z.to_nat W)) * Zcount y (Zrange 0 (Z.to_nat Hh)))%nat.
Proof.
  rewrite occurrences_concat_map. unfold grid_regions. fold Cn.
  rewrite list_sum_flat_map.
  rewrite (map_ext _
             (fun j => (Zcount x (Zrange 0 (Z.to_nat W))
                        * Zcount y (y_range (grid_quad config W Hh j 0) Hh))%nat)).
  - rewrite list_sum_map_mul_l, <- Zcount_flat_map, y_tiles. reflexivity.
  - intros j. rewrite map_map.
    rewrite (map_ext _ _ (fun k => region_occurrences x y j k)).
    rewrite list_sum_map_mul_r, <- Zcount_flat_map, (x_tiles 0). reflexivity.
Qed.

Lemma Forall2_map_r {A B : Type} (P : A -> B -> Prop) (f : A -> B)
    (l : list A) :
  (forall a, In a l -> P a (f a)) -> Forall2 P l (List.map f l).
Proof.
  induction l as [|a l IH]; intros Hf; simpl; constructor.
  - apply Hf. left. reflexivity.
  - apply IH. intros a' Ha'. apply Hf. right. exact Ha'.
Qed.

(** *** The rendered text *)

Section RenderedText.
Variable pixels : list Color.

Hypothesis Hlen : Z.of_nat (List.length pixels) = (W * Hh)%Z.
Hypothesis Hok : Forall Color_ok pixels.
Hypothesis HP : (0 <= num_spaces config)%Z.

Lemma image_fits : (W * Hh <= SIZE_MAX)%Z.
Proof.
  unfold INT_MAX in *. rewrite SIZE_MAX_value.
  assert (W * Hh <= (2 ^ 31 - 1) * (2 ^ 31 - 1))%Z by nia. lia.
Qed.

Lemma region_char_defined (q : Quad R) :
  region_sane q ->
  region_char config pixels W Hh q = Done (cell_char config pixels W Hh q).
Proof.
  intros Hsane. unfold cell_char.
  pose proof (region_pixels_exact q W Hh Hsane) as Hps.
  destruct (average_luma_defined config pixels q W Hh _
              ltac:(lia) ltac:(lia) Hlen image_fits Hps) as [st [_ Havg]].
  pose proof (average_luma_unit config pixels q W Hh _ Hok Havg) as HL.
  destruct (density_index_range config (mean st) HP HL) as [i [Hi Hrange]].
  unfold region_char. rewrite Havg. cbn [bind].
  rewrite (density_char_of_index config (mean st) i Hi) by lia.
  reflexivity.
Qed.

Lemma line_from_exact (j : nat) :
  (j < line_count config)%nat ->
  forall m k fuel,
    (k + m = Cn)%nat -> (m < fuel)%nat ->
    line_from fuel config pixels W Hh qw qh (INR j * qh) (INR k * qw)
    = Done (List.map
              (fun k => cell_char config pixels W Hh (grid_quad config W Hh j k))
              (seq k m)).
Proof.
  intros Hj. induction m as [|m IH]; intros k fuel Hk Hfuel;
    (destruct fuel as [|fuel]; [lia|]); cbn [line_from]; exact_ops.
  - replace k with Cn by lia.
    rewrite R_ltb_ge by (rewrite column_past_image; lra). reflexivity.
  - rewrite R_ltb_lt by (apply column_in_image; lia).
    change {| top_left_x := INR k * qw; top_left_y := INR j * qh;
              width := qw; height := qh |}
      with (grid_quad config W Hh j k).
    rewrite region_char_defined by (apply grid_quad_sane; [exact Hj | lia]).
    cbn [bind].
    replace (INR k * qw + qw) with (INR (S k) * qw)
      by (rewrite S_INR; ring).
    rewrite IH by lia. reflexivity.
Qed.

Lemma lines_from_exact (fuel : nat) :
  (Cn < fuel)%nat ->
  forall m j n,
    (j + m = line_count config)%nat -> (m < n)%nat ->
    lines_from fuel n config pixels W Hh qw qh (INR j * qh)
    = Done (unlines (List.map (grid_line config pixels W Hh) (seq j m))).
Proof.
  intros Hfuel. induction m as [|m IH]; intros j n Hj Hn;
    (destruct n as [|n]; [lia|]); cbn [lines_from]; exact_ops.
  - replace j with (line_count config) by lia.
    rewrite R_ltb_ge by exact line_past_image. reflexivity.
  - rewrite R_ltb_lt by (apply line_in_image; lia).
    replace 0 with (INR 0 * qw) by (simpl; ring).
    rewrite (line_from_exact j ltac:(lia) Cn 0 fuel) by lia.
    cbn [bind].
    replace (INR j * qh + qh) with (INR (S j) * qh)
      by (rewrite S_INR; ring).
    rewrite IH by lia. cbn [bind seq List.map].
    rewrite unlines_cons. reflexivity.
Qed.

Lemma doAsciiConversion_exact (fuel : nat) :
  (Cn < fuel)%nat -> (line_count config < fuel)%nat ->
  doAsciiConversion fuel config pixels W Hh
  = Done (unlines (grid_text config pixels W Hh)).
Proof.
  intros HfC Hfn. unfold doAsciiConversion. exact_ops. fold qw qh.
  replace 0 with (INR 0 * qh) by (simpl; ring).
  rewrite (lines_from_exact fuel HfC (line_count config) 0 fuel) by lia.
  reflexivity.
Qed.
Lemma cell_char_alphabet (q : Quad R) :
  region_sane q -> ramp_or_space (cell_char config pixels W Hh q).
Proof.
  intros Hsane.
  apply (region_char_alphabet config pixels W Hh q).
  apply region_char_defined. exact Hsane.
Qed.

Lemma grid_text_length :
  Z.of_nat (List.length (grid_text config pixels W Hh))
  = Zceil (IZR (rows config) * font_ratio config).
Proof.
  unfold grid_text. rewrite length_map, length_seq.
  pose proof line_count_pos as Hpos. unfold line_count in *. lia.
Qed.

Lemma grid_text_lines :
  Forall (fun l => Z.of_nat (List.length l) = cols config /\ ~ In newline l)
    (grid_text config pixels W Hh).
Proof.
  unfold grid_text. apply Forall_forall. intros l Hl.
  apply in_map_iff in Hl. destruct Hl as [j [<- Hj]].
  apply in_seq in Hj. unfold grid_line. split.
  - rewrite length_map, length_seq. lia.
  - intros Hin. apply in_map_iff in Hin. destruct Hin as [k [Hc Hk]].
    apply in_seq in Hk.
    apply newline_not_ramp_or_space. rewrite <- Hc.
    apply cell_char_alphabet. apply grid_quad_sane; [lia | fold Cn; lia].
Qed.

(** *** A uniform image *)

Lemma grid_quad_x_range_nonempty (j k : nat) :
  (k < Cn)%nat -> (cols config <= W)%Z ->
  (1 <= List.length (x_range (grid_quad config W Hh j k) W))%nat.
Proof.
  intros Hk Hcw. unfold x_range, grid_quad.
  cbn [top_left_x top_left_y width height]. fold qw.
  rewrite Zrange_length.
  pose proof (column_in_image k Hk) as Hx. pose proof (pos_INR k) as Hk0.
  pose proof qw_pos as Hq. pose proof qw_times_cols as Hqc.
  assert (Hc1 : 1 <= IZR (cols config)) by (apply IZR_le; exact HC).
  assert (Hcw' : IZR (cols config) <= IZR W) by (apply IZR_le; exact Hcw).
  assert (Hq1 : 1 <= qw) by nra.
  pose proof (Zfloor_below (INR k * qw) W Hx) as Hlo.
  assert (Hstep : (Zfloor (INR k * qw) + 1 <= Zfloor (INR k * qw + qw))%Z).
  { rewrite <- (Zfloor_addz 1). apply Zfloor_le. lra. }
  lia.
Qed.

Lemma grid_quad_y_range_nonempty (j k : nat) :
  (j < line_count config)%nat ->
  IZR (rows config) * font_ratio config <= IZR Hh ->
  (1 <= List.length (y_range (grid_quad config W Hh j k) Hh))%nat.
Proof.
  intros Hj Hrh. unfold y_range, grid_quad.
  cbn [top_left_x top_left_y width height]. fold qh.
  rewrite Zrange_length.
  pose proof (line_in_image j Hj) as Hy. pose proof (pos_INR j) as Hj0.
  pose proof qh_pos as Hq. pose proof qh_times_rows as Hqr.
  assert (Hq1 : 1 <= qh) by nra.
  pose proof (Zfloor_below (INR j * qh) Hh Hy) as Hlo.
  assert (Hstep : (Zfloor (INR j * qh) + 1 <= Zfloor (INR j * qh + qh))%Z).
  { rewrite <- (Zfloor_addz 1). apply Zfloor_le. lra. }
  lia.
Qed.

(** On a one-colour image every non-empty region aggregates to the
    luminance of that colour. *)
Lemma accumulate_solid (c : Color) :
  pixels = solid c W Hh ->
  forall ps st,
    (forall x y, In (x, y) ps -> (0 <= x < W)%Z /\ (0 <= y < Hh)%Z) ->
    accumulate config pixels W ps st
    = Done (fst st + INR (List.length ps) * pixel_luma config c,
            snd st + INR (List.length ps)).
Proof.
  intros Hsolid. induction ps as [|[x y] ps IH]; intros [a n] Hin.
  - simpl. f_equal. f_equal; ring.
  - cbn [accumulate].
    destruct (Hin x y (or_introl eq_refl)) as [Hx Hy].
    assert (Hidx : (0 <= x + y * W < W * Hh)%Z) by nia.
    pose proof image_fits as Hfits.
    unfold read_pixel. rewrite wrap_size_t_small by lia.
    rewrite Hsolid at 1. unfold solid.
    rewrite nth_error_repeat by lia. cbn [of_option bind].
    rewrite IH by (intros x' y' Hin'; apply Hin; right; exact Hin').
    cbn [fst snd]. exact_ops.
    change (List.length ((x, y) :: ps)) with (S (List.length ps)).
    rewrite S_INR. f_equal. f_equal; ring.
Qed.

Lemma average_luma_solid (c : Color) (j k : nat) :
  pixels = solid c W Hh ->
  (j < line_count config)%nat -> (k < Cn)%nat ->
  (cols config <= W)%Z ->
  IZR (rows config) * font_ratio config <= IZR Hh ->
  average_luma config pixels (grid_quad config W Hh j k) W Hh
  = Done (pixel_luma config c).
Proof.
  intros Hsolid Hj Hk Hcw Hrh.
  pose proof (grid_quad_sane j k Hj Hk) as Hsane.
  pose proof (region_pixels_exact _ W Hh Hsane) as Hps.
  rewrite average_luma_as_pass, Hps. cbn [bind].
  rewrite (accumulate_solid c Hsolid)
    by (apply (region_pixels_in_bounds _ W Hh _ Hps)).
  cbn [bind fst snd]. f_equal.
  set (ps := flat_map _ _).
  assert (Hn : (1 <= List.length ps)%nat).
  { unfold ps. rewrite length_flat_map.
    pose proof (grid_quad_x_range_nonempty j k Hk Hcw) as Hxn.
    pose proof (grid_quad_y_range_nonempty j k Hj Hrh) as Hyn.
    destruct (y_range (grid_quad config W Hh j k) Hh) as [|y ys];
      [simpl in Hyn; lia|].
    simpl. rewrite length_map. lia. }
  assert (HnR : 1 <= INR (List.length ps)) by (apply (le_INR 1); exact Hn).
  unfold mean. exact_ops.
  rewrite R_eqb_neq by lra. field. lra.
Qed.

Lemma pixel_luma_white : pixel_luma config white = 1.
Proof.
  destruct (grey_exact 255 ltac:(lia)) as (H1 & H2 & H3).
  change (grey 255) with white in *.
  unfold pixel_luma.
  destruct (alt config); [rewrite H2; lra|].
  destruct (perceived config); [rewrite H3 | rewrite H1]; lra.
Qed.

Lemma density_char_full_not_inverted :
  inverted config = false ->
  density_char config 1 = Done "@"%char.
Proof.
  intros Hinv.
  assert (Hidx : density_index config 1 = Done 0%Z).
  { unfold density_index. rewrite Hinv. cbn [negb]. exact_ops.
    replace (IZR (wrap_size_t (DENSITY_size + num_spaces config - 1))
             * (1 - 1)) with 0 by ring.
    rewrite to_size_t_exact; [rewrite (ZfloorZ 0); reflexivity | lra |].
    rewrite SIZE_MAX_value. simpl (18446744073709551615 + 1)%Z. lra. }
  rewrite (density_char_of_index config 1 0%Z Hidx) by lia. reflexivity.
Qed.

Lemma map_constant {A B : Type} (f : A -> B) (b : B) (l : list A) :
  (forall a, In a l -> f a = b) -> List.map f l = repeat b (List.length l).
Proof.
  induction l as [|a l IH]; intros Hf; simpl; [reflexivity|].
  rewrite (Hf a (or_introl eq_refl)). f_equal.
  apply IH. intros a' Ha'. apply Hf. right. exact Ha'.
Qed.

End RenderedText.
End ExactRenderer.

Lemma Zceil_IZR (z : Z) : Zceil (IZR z) = z.
Proof. apply Zceil_eq. lra. Qed.

Lemma solid_ok (c : Color) (W Hh : Z) :
  Color_ok c -> Forall Color_ok (solid c W Hh).
Proof.
  intros Hc. unfold solid. apply Forall_forall. intros c' Hin.
  apply repeat_spec in Hin. subst c'. exact Hc.
Qed.

Lemma solid_length (c : Color) (W Hh : Z) :
  (0 <= W * Hh)%Z -> Z.of_nat (List.length (solid c W Hh)) = (W * Hh)%Z.
Proof.
  intros Hn. unfold solid. rewrite repeat_length. lia.
Qed.

Lemma white_ok : Color_ok white.
Proof. unfold Color_ok, uint8. simpl. lia. Qed.



(** On IEEE doubles the accumulated offsets are rounded: 30 columns on a
    100-pixel-wide image end at x = 99.99999999999997 < 100 after 30 steps,
    and a 31st character is written. *)
Example thirty_columns_give_31_characters :
  exists line : list ascii,
    doAsciiConversion 40 (cfg false 30 1 (dlit 1 1 : float) 9)
      (solid white 100 1) 100 1
    = Done (unlines [line])
    /\ List.length line = 31%nat.
Proof.
  exists (repeat "@"%char 31). vm_compute. split; reflexivity.
Qed.



(** With more columns than pixel columns some regions are empty; an empty
    region has luminance 0 and, without inversion, is written as a space
    even on a white image (IEEE doubles). *)
Example empty_region_of_white_image_is_a_space :
  doAsciiConversion 10 (cfg false 2 1 (dlit 1 1 : float) 9)
    (solid white 1 1) 1 1
  = Done (unlines [list_ascii_of_string " @"]).
Proof. vm_compute. reflexivity. Qed.


(** On IEEE doubles, 30 columns on a 100-pixel-wide image give 31 regions
    (the rounded offsets fall short of 100 after 30 steps); their pixel sets
    still tile the row: every pixel occurs exactly once. *)
Example rounded_regions_still_tile :
  exists pss : list (list (Z * Z)),
    all_region_pixels
      (sampling_regions 40 (cfg false 30 1 (dlit 1 1 : float) 9) 100 1) 100 1
    = Done pss
    /\ List.length pss = 31%nat
    /\ forallb
         (fun x => Nat.eqb (occurrences (Z.of_nat x, 0%Z) (List.concat pss)) 1)
         (seq 0 100) = true
    /\ List.length (List.concat pss) = 100%nat.
Proof.
  eexists. split; [vm_compute; reflexivity|].
  vm_compute. repeat split; reflexivity.
Qed.

(** ** Further runs on IEEE doubles *)

(** Neither columns nor rows given: one column per pixel column and one row
    per pixel row. *)
Example normalization_defaults :
  normalization (default_config (D := float)) 100 50
  = Done (set_rows (set_cols (default_config (D := float)) 100) 50).
Proof. vm_compute. reflexivity. Qed.

(** A 2x2 solid black image on a 1x1 grid with inversion: the first ramp
    character and one line terminator. *)
Example black_image_inverted :
  doAsciiConversion 5 (cfg true 1 1 (dlit 1 2 : float) 9) (solid black 2 2) 2 2
  = Done ["@"%char; newline].
Proof. vm_compute. reflexivity. Qed.

(** The scaled luminance is rounded before it is truncated: for the double
    nearest to 1/76, whose exact value lies below 1/76, the product with 76
    is rounded to 1 and the index is 1, where the floor of the exact product
    is 0. *)
Example rounded_product_reaches_next_index :
  density_index (cfg true 80 40 (dlit 1 2 : float) 9) (dlit 1 76) = Done 1%Z
  /\ option_map (fun q => Qfloor (76 * q)) (float_value (dlit 1 76)) = Some 0%Z.
Proof. vm_compute. split; reflexivity. Qed.

(** * Further properties *)

(** ** [clamp] *)

(** X1. With min <= max, [clamp] returns a value of [min, max], leaves the
    values of that interval unchanged, and is idempotent. *)
Theorem clamp_in_range (x min max : Z) :
  (min <= max)%Z ->
  (min <= clamp x min max <= max)%Z
  /\ ((min <= x <= max)%Z -> clamp x min max = x)
  /\ clamp (clamp x min max) min max = clamp x min max.
Proof.
  intros Hmm. unfold clamp.
  destruct (x <? min)%Z eqn:E1; [apply Z.ltb_lt in E1 | apply Z.ltb_ge in E1].
  - rewrite Z.ltb_irrefl.
    replace (max <? min)%Z with false by (symmetry; apply Z.ltb_ge; lia).
    repeat split; lia.
  - destruct (max <? x)%Z eqn:E2;
      [apply Z.ltb_lt in E2 | apply Z.ltb_ge in E2].
    + replace (max <? min)%Z with false by (symmetry; apply Z.ltb_ge; lia).
      rewrite Z.ltb_irrefl. repeat split; lia.
    + replace (x <? min)%Z with false by (symmetry; apply Z.ltb_ge; lia).
      replace (max <? x)%Z with false by (symmetry; apply Z.ltb_ge; lia).
      repeat split; lia.
Qed.

Lemma clamp_in_range_witness :
  (10 <= clamp 300 10 255 <= 255)%Z
  /\ ((10 <= 300 <= 255)%Z -> clamp 300 10 255 = 300%Z)
  /\ clamp (clamp 300 10 255) 10 255 = clamp 300 10 255.
Proof. apply (clamp_in_range 300 10 255). lia. Defined.

(** ** The sampler and the renderer, for every arithmetic *)

Section MoreSampler.
Context {D : Type} `{Double D}.

Lemma accumulate_ext (config : Configuration D) pixels pixels' W :
  forall ps st,
    (forall x y, In (x, y) ps ->
       read_pixel pixels (wrap_size_t (x + y * W))
       = read_pixel pixels' (wrap_size_t (x + y * W))) ->
    accumulate config pixels W ps st = accumulate config pixels' W ps st.
Proof.
  induction ps as [|[x y] ps IH]; intros st Hsame; [reflexivity|].
  cbn [accumulate]. rewrite (Hsame x y (or_introl eq_refl)).
  destruct (read_pixel pixels' (wrap_size_t (x + y * W))) as [pixel| |];
    cbn [bind]; try reflexivity.
  apply IH. intros x' y' Hin. apply Hsame. right. exact Hin.
Qed.

Lemma regions_line_length (W : Z) (qw qh y y' : D) :
  forall fuel x,
    List.length (regions_line fuel W qw qh y x)
    = List.length (regions_line fuel W qw qh y' x).
Proof.
  induction fuel as [|fuel IH]; intros x; [reflexivity|].
  cbn [regions_line]. destruct (dlt x (of_int W)); [|reflexivity].
  cbn [List.length]. rewrite (IH (dadd x qw)). reflexivity.
Qed.

Lemma line_from_regions (config : Configuration D) pixels W Hh qw qh y :
  forall fuel x line,
    line_from fuel config pixels W Hh qw qh y x = Done line ->
    Forall2 (fun q c => region_char config pixels W Hh q = Done c)
      (regions_line fuel W qw qh y x) line.
Proof.
  induction fuel as [|fuel IH]; intros x line Hl; [discriminate|].
  cbn [line_from regions_line] in *.
  destruct (dlt x (of_int W)).
  - apply bind_Done in Hl. destruct Hl as [c [Hc Hl]].
    apply bind_Done in Hl. destruct Hl as [rest [Hrest Hl]].
    apply Done_inj in Hl. subst line.
    constructor; [exact Hc | apply IH; exact Hrest].
  - apply Done_inj in Hl. subst line. constructor.
Qed.

Lemma lines_from_regions (config : Configuration D) pixels W Hh qw qh
    (fuel : nat) (y0 : D) :
  forall n y text,
    lines_from fuel n config pixels W Hh qw qh y = Done text ->
    exists lines : list (list ascii),
      text = unlines lines
      /\ Forall (fun l =>
                   List.length l
                   = List.length (regions_line fuel W qw qh y0 (of_int 0))
                   /\ ~ In newline l) lines
      /\ Forall2 (fun q c => region_char config pixels W Hh q = Done c)
           (regions_from fuel n W Hh qw qh y) (List.concat lines).
Proof.
  induction n as [|n IH]; intros y text Ht; [discriminate|].
  cbn [lines_from regions_from] in *.
  destruct (dlt y (of_int Hh)).
  - apply bind_Done in Ht. destruct Ht as [line [Hline Ht]].
    apply bind_Done in Ht. destruct Ht as [rest [Hrest Ht]].
    apply Done_inj in Ht. subst text.
    destruct (IH _ _ Hrest) as [lines [Htext [Hshape Hregions]]].
    pose proof (line_from_regions config pixels W Hh qw qh y fuel _ _ Hline)
      as Hl2.
    exists (line :: lines). split; [|split].
    + rewrite unlines_cons, Htext. reflexivity.
    + constructor; [|exact Hshape]. split.
      * rewrite <- (Forall2_length Hl2). apply regions_line_length.
      * intros Hin. apply newline_not_ramp_or_space.
        pose proof (line_from_alphabet config pixels W Hh qw qh y fuel _ _
                      Hline) as Hal.
        rewrite Forall_forall in Hal. apply Hal. exact Hin.
    + cbn [List.concat]. apply Forall2_app; assumption.
  - apply Done_inj in Ht. subst text. exists []. repeat split; constructor.
Qed.
End MoreSampler.

(** X2. [average_luma] depends on the buffer only through the pixels of its
    region: two buffers that agree at the coordinates the region covers give
    the same result, whatever they hold elsewhere.  Every arithmetic. *)
Theorem average_luma_reads_region_only {D : Type} `{Double D}
    (config : Configuration D) (pixels pixels' : list Color)
    (region : Quad D) (W Hh : Z) (ps : list (Z * Z)) :
  region_pixels region W Hh = Done ps ->
  (forall x y, In (x, y) ps ->
     read_pixel pixels (wrap_size_t (x + y * W))
     = read_pixel pixels' (wrap_size_t (x + y * W))) ->
  average_luma config pixels region W Hh
  = average_luma config pixels' region W Hh.
Proof.
  intros Hps Hsame. rewrite !average_luma_as_pass, Hps. cbn [bind].
  rewrite (accumulate_ext config pixels pixels' W ps _ Hsame). reflexivity.
Qed.

Lemma average_luma_reads_region_only_witness :
  average_luma (cfg false 2 1 (dlit 1 1 : float) 9) [white; black]
    {| top_left_x := of_int 0; top_left_y := of_int 0;
       width := of_int 1; height := of_int 1 |} 2 1
  = average_luma (cfg false 2 1 (dlit 1 1 : float) 9) [white; grey 77]
      {| top_left_x := of_int 0; top_left_y := of_int 0;
         width := of_int 1; height := of_int 1 |} 2 1.
Proof.
  apply (average_luma_reads_region_only
           (cfg false 2 1 (dlit 1 1 : float) 9) [white; black] [white; grey 77]
           {| top_left_x := of_int 0; top_left_y := of_int 0;
              width := of_int 1; height := of_int 1 |} 2 1 [(0, 0)]%Z).
  - vm_compute. reflexivity.
  - intros x y [Heq | []]. injection Heq as <- <-. reflexivity.
Defined.

(** X3. The text of a completed conversion is rectangular and in sampling
    order: it is a sequence of lines of one common length, each ended by one
    newline and containing none, and its characters, read line by line, are
    the characters of the sampled regions in the order the loops visit them.
    Every arithmetic, IEEE doubles included. *)
Theorem completed_conversion_is_rectangular {D : Type} `{Double D}
    (fuel : nat) (config : Configuration D) (pixels : list Color)
    (W Hh : Z) (text : list ascii) :
  doAsciiConversion fuel config pixels W Hh = Done text ->
  exists (lines : list (list ascii)) (n : nat),
    text = unlines lines
    /\ Forall (fun l => List.length l = n /\ ~ In newline l) lines
    /\ Forall2 (fun q c => region_char config pixels W Hh q = Done c)
         (sampling_regions fuel config W Hh) (List.concat lines).
Proof.
  unfold doAsciiConversion, sampling_regions. intros Ht.
  destruct (lines_from_regions config pixels W Hh _ _ fuel (of_int 0)
              fuel _ _ Ht) as [lines [Htext [Hshape Hregions]]].
  exists lines. eexists. split; [exact Htext|]. split; [exact Hshape|].
  exact Hregions.
Qed.

Lemma completed_conversion_is_rectangular_witness :
  exists (lines : list (list ascii)) (n : nat),
    unlines [repeat "@"%char 31] = unlines lines
    /\ Forall (fun l => List.length l = n /\ ~ In newline l) lines
    /\ Forall2 (fun q c =>
                  region_char (cfg false 30 1 (dlit 1 1 : float) 9)
                    (solid white 100 1) 100 1 q = Done c)
         (sampling_regions 40 (cfg false 30 1 (dlit 1 1 : float) 9) 100 1)
         (List.concat lines).
Proof.
  apply (completed_conversion_is_rectangular 40
           (cfg false 30 1 (dlit 1 1 : float) 9) (solid white 100 1) 100 1).
  vm_compute. reflexivity.
Defined.

(** ** Exact arithmetic: means and luminance models *)

Section ExactMean.
Local Open Scope R_scope.

Lemma accumulate_sum (config : Configuration R) pixels W Hh :
  (0 <= W)%Z -> (0 <= Hh)%Z ->
  Z.of_nat (List.length pixels) = (W * Hh)%Z ->
  (W * Hh <= SIZE_MAX)%Z ->
  forall ps st,
    (forall x y, In (x, y) ps -> (0 <= x < W)%Z /\ (0 <= y < Hh)%Z) ->
    accumulate config pixels W ps st
    = Done (fst st
            + Rsum (List.map
                      (fun p => pixel_luma config (pixel_at pixels W p)) ps),
            snd st + INR (List.length ps)).
Proof.
  intros HW HH Hlen Hmax. induction ps as [|[x y] ps IH]; intros [a n] Hin.
  - simpl. f_equal. f_equal; ring.
  - cbn [accumulate].
    destruct (Hin x y (or_introl eq_refl)) as [Hx Hy].
    assert (Hidx : (0 <= x + y * W < W * Hh)%Z) by nia.
    unfold read_pixel. rewrite wrap_size_t_small by lia.
    rewrite (nth_error_nth' pixels black) by lia. cbn [of_option bind].
    rewrite IH by (intros x' y' Hin'; apply Hin; right; exact Hin').
    unfold Rsum, pixel_at. cbn [fst snd List.map fold_right]. exact_ops.
    change (List.length ((x, y) :: ps)) with (S (List.length ps)).
    rewrite S_INR. f_equal. f_equal; ring.
Qed.

Lemma channel_nonneg (z : Z) : uint8 z -> 0 <= IZR z.
Proof. intros [Hz _]. apply IZR_le. exact Hz. Qed.

Lemma weighted_square (r g b : R) :
  (299 / 1000 * r + 587 / 1000 * g + 114 / 1000 * b)
  * (299 / 1000 * r + 587 / 1000 * g + 114 / 1000 * b)
  <= 299 / 1000 * r * r + 587 / 1000 * g * g + 114 / 1000 * b * b.
Proof.
  pose proof (pow2_ge_0 (r - g)). pose proof (pow2_ge_0 (r - b)).
  pose proof (pow2_ge_0 (g - b)). nra.
Qed.
End ExactMean.







(** ** Exact arithmetic: one-colour images *)

Section UniformImage.
Local Open Scope R_scope.

Variable config : Configuration R.
Variables W Hh : Z.
Variable pixels : list Color.

Hypothesis HW : (0 < W <= INT_MAX)%Z.
Hypothesis HH : (0 < Hh <= INT_MAX)%Z.
Hypothesis HC : (1 <= cols config)%Z.
Hypothesis Hrf : 0 < IZR (rows config) * font_ratio config.
Hypothesis Hfit :
  IZR Hh <= IZR (rows config) * font_ratio config * IZR (2 ^ 32).
Hypothesis Hlen : Z.of_nat (List.length pixels) = (W * Hh)%Z.
Hypothesis Hok : Forall Color_ok pixels.
Hypothesis HP : (0 <= num_spaces config)%Z.

(** A grid whose regions all give the same character. *)
Lemma uniform_cells (ch : ascii) :
  (forall j k,
     (j < line_count config)%nat -> (k < Z.to_nat (cols config))%nat ->
     region_char config pixels W Hh (grid_quad config W Hh j k) = Done ch) ->
  grid_text config pixels W Hh
  = repeat (repeat ch (Z.to_nat (cols config))) (line_count config).
Proof.
  intros Hcell. unfold grid_text.
  rewrite (map_constant _ (repeat ch (Z.to_nat (cols config)))).
  - rewrite length_seq. reflexivity.
  - intros j Hj. apply in_seq in Hj. unfold grid_line.
    rewrite (map_constant _ ch).
    + rewrite length_seq. reflexivity.
    + intros k Hk. apply in_seq in Hk. unfold cell_char.
      rewrite Hcell by lia. reflexivity.
Qed.

Lemma pixel_luma_black : pixel_luma config black = 0.
Proof.
  destruct (grey_exact 0 ltac:(lia)) as (H1 & H2 & H3).
  change (grey 0) with black in *.
  unfold pixel_luma.
  destruct (alt config); [rewrite H2; lra|].
  destruct (perceived config); [rewrite H3 | rewrite H1]; lra.
Qed.

(** On a black image every region of the grid, empty or not, has
    luminance 0. *)
Lemma average_luma_black (j k : nat) :
  pixels = solid black W Hh ->
  (j < line_count config)%nat -> (k < Z.to_nat (cols config))%nat ->
  average_luma config pixels (grid_quad config W Hh j k) W Hh = Done 0.
Proof.
  intros Hsolid Hj Hk.
  pose proof (grid_quad_sane config W Hh HW HH HC Hrf Hfit j k Hj Hk)
    as Hsane.
  pose proof (region_pixels_exact _ W Hh Hsane) as Hps.
  rewrite average_luma_as_pass, Hps. cbn [bind].
  rewrite (accumulate_solid config W Hh HW HH HC pixels Hlen black Hsolid)
    by (apply (region_pixels_in_bounds _ W Hh _ Hps)).
  cbn [bind fst snd]. f_equal. rewrite pixel_luma_black.
  unfold mean. exact_ops. unfold R_eqb.
  destruct (Req_dec_T _ _) as [Hz | Hnz]; [ring|].
  unfold Rdiv. ring.
Qed.

(** The character written for luminance 0 without inversion: the index is
    [DENSITY.size() + num_spaces - 1]. *)
Lemma density_char_dark_not_inverted :
  inverted config = false ->
  (num_spaces config <= SIZE_MAX - 67)%Z ->
  density_char config 0
  = Done (if (num_spaces config =? 0)%Z then "`"%char else space).
Proof.
  intros Hinv Hmax.
  assert (Hm : (0 <= DENSITY_size + num_spaces config - 1 <= SIZE_MAX)%Z)
    by (rewrite DENSITY_size_value; lia).
  assert (Hidx : density_index config 0
                 = Done (DENSITY_size + num_spaces config - 1)%Z).
  { unfold density_index. rewrite Hinv. cbn [negb]. exact_ops.
    rewrite wrap_size_t_small by exact Hm.
    replace (IZR (DENSITY_size + num_spaces config - 1) * (1 - 0))
      with (IZR (DENSITY_size + num_spaces config - 1)) by ring.
    rewrite to_size_t_exact.
    - rewrite ZfloorZ. reflexivity.
    - apply IZR_le. lia.
    - apply IZR_lt. lia. }
  rewrite (density_char_of_index config 0 _ Hidx) by lia.
  rewrite DENSITY_size_value.
  destruct (num_spaces config =? 0)%Z eqn:HP0.
  - apply Z.eqb_eq in HP0. rewrite HP0. reflexivity.
  - apply Z.eqb_neq in HP0.
    replace (68 <=? 68 + num_spaces config - 1)%Z with true
      by (symmetry; apply Z.leb_le; lia).
    reflexivity.
Qed.



(** The shape of the text of a conversion (see the grid lemmas above). *)
Lemma doAsciiConversion_shape (fuel : nat) :
  (Z.to_nat (cols config) < fuel)%nat ->
  (line_count config < fuel)%nat ->
  exists lines : list (list ascii),
    doAsciiConversion fuel config pixels W Hh = Done (unlines lines)
    /\ Z.of_nat (List.length lines)
       = Zceil (IZR (rows config) * font_ratio config)
    /\ Forall (fun l => Z.of_nat (List.length l) = cols config
                        /\ ~ In newline l) lines.
Proof.
  intros HfC Hfn. exists (grid_text config pixels W Hh).
  split; [|split].
  - exact (doAsciiConversion_exact config W Hh HW HH HC Hrf Hfit pixels
             Hlen Hok HP fuel HfC Hfn).
  - exact (grid_text_length config W Hh HC Hrf pixels).
  - exact (grid_text_lines config W Hh HW HH HC Hrf Hfit pixels Hlen Hok HP).
Qed.
End UniformImage.

Lemma black_ok : Color_ok black.
Proof. unfold Color_ok, uint8. simpl. lia. Qed.

Lemma line_count_unit (c r : Z) (p : Z) (inv : bool) :
  line_count (cfg inv c r 1%R p) = Z.to_nat r.
Proof.
  unfold line_count. cbn [rows font_ratio cfg].
  rewrite Rmult_1_r, Zceil_IZR. reflexivity.
Qed.



(** ** Exact arithmetic: [main], from the flags to the text *)

Section ExactMain.
Local Open Scope R_scope.

Lemma to_uint32_overflow (x : R) :
  IZR (UINT32_MAX + 1) <= x -> to_uint32 x = Undefined.
Proof.
  intros Hx. unfold to_uint32. cbn [dtrunc Exact_double].
  assert (H0 : 0 <= x).
  { assert (0 <= IZR (UINT32_MAX + 1)) by (apply IZR_le; vm_compute;
                                           discriminate). lra. }
  rewrite (R_trunc_nonneg _ H0).
  assert (Hfl : (UINT32_MAX + 1 <= Zfloor x)%Z) by (apply Zfloor_lub; exact Hx).
  replace (Zfloor x <=? UINT32_MAX)%Z with false
    by (symmetry; apply Z.leb_gt; lia).
  rewrite andb_false_r. reflexivity.
Qed.

Lemma scaled_quotient (a b c : Z) :
  (0 <= a)%Z -> (0 <= b)%Z -> (0 < c)%Z ->
  0 <= IZR a * IZR b / IZR c + 1
  /\ Zfloor (IZR a * IZR b / IZR c + 1) = (a * b / c + 1)%Z.
Proof.
  intros Ha Hb Hc. rewrite <- mult_IZR. split.
  - assert (0 <= IZR (a * b) / IZR c); [|lra].
    apply Rmult_le_pos; [apply IZR_le; nia|].
    apply Rlt_le, Rinv_0_lt_compat, IZR_lt. exact Hc.
  - rewrite Zfloor_addz, Zfloor_div by exact Hc. reflexivity.
Qed.

Lemma normalization_cols_exact (config : Configuration R) (W Hh : Z) :
  cols config = UINT32_MAX ->
  rows config <> UINT32_MAX ->
  (0 <= rows config)%Z -> (0 <= W)%Z -> (0 < Hh)%Z ->
  (rows config * W / Hh + 1 <= UINT32_MAX)%Z ->
  normalization config W Hh
  = Done (set_cols config (rows config * W / Hh + 1)).
Proof.
  intros Hc Hr Hr0 HW HH Hfit. unfold normalization.
  apply Z.eqb_eq in Hc. rewrite Hc.
  apply Z.eqb_neq in Hr. rewrite Hr. cbn [andb]. exact_ops.
  destruct (scaled_quotient (rows config) W Hh Hr0 HW HH) as [Hq0 Hfl].
  rewrite to_uint32_exact.
  - rewrite Hfl. reflexivity.
  - exact Hq0.
  - destruct (Zfloor_bound (IZR (rows config) * IZR W / IZR Hh + 1))
      as [_ Hhi].
    rewrite Hfl in Hhi.
    assert (IZR (rows config * W / Hh + 1) + 1 <= IZR (UINT32_MAX + 1)).
    { rewrite <- (plus_IZR _ 1). apply IZR_le. lia. }
    lra.
Qed.

Lemma wrap_uint32_small (z : Z) :
  (0 <= z <= INT_MAX)%Z -> wrap_uint32 z = z.
Proof.
  unfold INT_MAX, wrap_uint32. intros Hz. apply Z.mod_small. lia.
Qed.
End ExactMain.









(** ** The command line *)

Lemma and_then_Returns {A B : Type} (c : run A) (k : A -> run B) (b : B) :
  and_then c k = Returns b -> exists a, c = Returns a /\ k a = Returns b.
Proof.
  destruct c as [a| | | |]; cbn [and_then]; intros Hk; try discriminate.
  exists a. split; [reflexivity | exact Hk].
Qed.

Lemma Returns_inj {A : Type} (a b : A) : Returns a = Returns b -> a = b.
Proof. intros Heq. injection Heq as Heq. exact Heq. Qed.

Lemma substring_all (s : string) : substring 0 (String.length s) s = s.
Proof. induction s as [|c s IH]; simpl; [reflexivity | rewrite IH; reflexivity]. Qed.

Lemma substring_tail (c : ascii) (s : string) :
  substring 1 (String.length (String c s) - 1) (String c s) = s.
Proof.
  cbn [String.length]. rewrite Nat.sub_succ, Nat.sub_0_r.
  cbn [substring]. apply substring_all.
Qed.

Lemma starts_with_dash_inv (arg : string) :
  starts_with_dash arg = true -> exists s, arg = String "-" s.
Proof.
  destruct arg as [|c s]; [discriminate|]. unfold starts_with_dash.
  destruct c as [[] [] [] [] [] [] [] []]; try discriminate.
  intros _. exists s. reflexivity.
Qed.

Lemma stoi_finishes (s : string) : stoi s <> Unfinished /\ stoi s <> Overruns.
Proof.
  unfold stoi. destruct (signed_number s) as [[negative m]|];
    [|split; discriminate].
  destruct ((INT_MIN <=? _)%Z && _); split; discriminate.
Qed.

Lemma stoull_finishes (s : string) :
  stoull s <> Unfinished /\ stoull s <> Overruns.
Proof.
  unfold stoull. destruct (signed_number s) as [[negative m]|];
    [|split; discriminate].
  destruct (m <=? SIZE_MAX)%Z; split; discriminate.
Qed.

Section ParserFacts.
Context {D : Type} `{Double D}.
Variable stod : string -> option D.
Variable v : variant.

(** The two [switch] statements, case by case. *)
Lemma parse_value_cases (p : ascii) (config : CommandLine D) (arg : string)
    (P : run (CommandLine D) -> Prop) :
  P (n <~ stoi arg ;;
     Returns (with_settings config
                (set_cols (settings config) (wrap_uint32 n)))) ->
  P (n <~ stoi arg ;;
     Returns (with_settings config
                (set_rows (settings config) (wrap_uint32 n)))) ->
  P (n <~ stoull arg ;;
     Returns (with_settings config (set_num_spaces (settings config) n))) ->
  P (Returns (with_output_path config arg)) ->
  P (parse_ratio stod v config arg) ->
  (takes_value p = false -> P (Returns (with_input_path config arg))) ->
  P (parse_value stod v p config arg).
Proof.
  intros HW HH Hn Ho Hr Hi.
  destruct p as [[] [] [] [] [] [] [] []];
    first [exact HW | exact HH | exact Hn | exact Ho | exact Hr
          | exact (Hi eq_refl)].
Qed.

Lemma parse_flag_cases (a : ascii) (config : CommandLine D) (p : ascii)
    (P : CommandLine D * ascii -> Prop) :
  (takes_value a = true -> P (config, a)) ->
  P (with_settings config (set_alt (settings config)), p) ->
  P (with_usage config, p) ->
  P (with_settings config (set_inverted (settings config)), p) ->
  P (with_settings config (set_perceived (settings config)), p) ->
  P (parse_flag a (config, p)).
Proof.
  intros Hv Ha Hu Hi Hp.
  destruct a as [[] [] [] [] [] [] [] []];
    first [exact (Hv eq_refl) | exact Ha | exact Hu | exact Hi | exact Hp].
Qed.

Lemma takes_value_not_NUL (a : ascii) :
  takes_value a = true -> Ascii.eqb a NUL = false.
Proof.
  destruct a as [[] [] [] [] [] [] [] []]; try discriminate; reflexivity.
Qed.

(** *** Termination *)

Lemma scan_flags_ext
    (r1 r2 : CommandLine D * ascii -> string -> run (CommandLine D * ascii))
    (n : nat) :
  (forall st s, (String.length s <= n)%nat -> r1 st s = r2 st s) ->
  forall s st,
    (String.length s <= n)%nat ->
    scan_flags r1 st s = scan_flags r2 st s.
Proof.
  intros Hr. induction s as [|a s IH]; intros st Hs; [reflexivity|].
  cbn [scan_flags]. destruct (negb (Ascii.eqb (snd st) NUL)).
  - apply Hr. exact Hs.
  - apply IH. cbn [String.length] in Hs. lia.
Qed.

Lemma parse_arg_in_enough :
  forall fuel fuel' st arg,
    (String.length arg < fuel)%nat -> (String.length arg < fuel')%nat ->
    parse_arg_in stod fuel v st arg = parse_arg_in stod fuel' v st arg.
Proof.
  induction fuel as [|fuel IH]; intros fuel' st arg Hf Hf'; [lia|].
  destruct fuel' as [|fuel']; [lia|]. cbn [parse_arg_in].
  destruct (starts_with_dash arg) eqn:Hdash; cbn [negb]; [|reflexivity].
  destruct (prefix "--" arg && String.eqb "--help" arg); [reflexivity|].
  destruct (starts_with_dash_inv arg Hdash) as [s ->].
  rewrite substring_tail. cbn [String.length] in Hf, Hf'.
  apply (scan_flags_ext _ _ (String.length s)); [|lia].
  intros st' s' Hs'. apply IH; lia.
Qed.

Lemma parse_ratio_finishes (config : CommandLine D) (arg : string) :
  parse_ratio stod v config arg <> Unfinished.
Proof.
  unfold parse_ratio.
  destruct (_ <=? _)%nat; [|discriminate].
  destruct (strtok arg) as [[x_part rest]|]; [|discriminate].
  destruct (strtok rest) as [[y_part rest']|]; [|discriminate].
  destruct (stod x_part); cbn [or_throw and_then]; [|discriminate].
  destruct (stod y_part); cbn [or_throw and_then]; discriminate.
Qed.

Lemma parse_value_finishes (p : ascii) (config : CommandLine D)
    (arg : string) :
  parse_value stod v p config arg <> Unfinished.
Proof.
  apply parse_value_cases; try discriminate.
  - destruct (stoi_finishes arg) as [Hs _].
    destruct (stoi arg); cbn [and_then]; congruence.
  - destruct (stoi_finishes arg) as [Hs _].
    destruct (stoi arg); cbn [and_then]; congruence.
  - destruct (stoull_finishes arg) as [Hs _].
    destruct (stoull arg); cbn [and_then]; congruence.
  - apply parse_ratio_finishes.
Qed.

Lemma scan_flags_finishes
    (r : CommandLine D * ascii -> string -> run (CommandLine D * ascii))
    (n : nat) :
  (forall st s, (String.length s <= n)%nat -> r st s <> Unfinished) ->
  forall s st,
    (String.length s <= n)%nat -> scan_flags r st s <> Unfinished.
Proof.
  intros Hr. induction s as [|a s IH]; intros st Hs; [discriminate|].
  cbn [scan_flags]. destruct (negb (Ascii.eqb (snd st) NUL)).
  - apply Hr. exact Hs.
  - apply IH. cbn [String.length] in Hs. lia.
Qed.

Lemma parse_arg_in_finishes :
  forall fuel st arg,
    (String.length arg < fuel)%nat ->
    parse_arg_in stod fuel v st arg <> Unfinished.
Proof.
  induction fuel as [|fuel IH]; intros st arg Hf; [lia|].
  cbn [parse_arg_in].
  destruct (starts_with_dash arg) eqn:Hdash; cbn [negb].
  - destruct (prefix "--" arg && String.eqb "--help" arg); [discriminate|].
    destruct (starts_with_dash_inv arg Hdash) as [s ->].
    rewrite substring_tail. cbn [String.length] in Hf.
    apply (scan_flags_finishes _ (String.length s)); [|lia].
    intros st' s' Hs'. apply IH. lia.
  - pose proof (parse_value_finishes (snd st) (fst st) arg) as Hv.
    destruct (parse_value stod v (snd st) (fst st) arg); cbn [and_then];
      congruence.
Qed.

(** *** What a call changes *)

(** An invariant of the state is kept by every call on an argument that
    starts with a dash or follows an option, when the assignments such a
    call can make keep it. *)
Lemma parse_arg_in_invariant (Inv : CommandLine D * ascii -> Prop) :
  (forall st arg config',
     Inv st -> Ascii.eqb (snd st) NUL = false ->
     parse_value stod v (snd st) (fst st) arg = Returns config' ->
     Inv (config', NUL)) ->
  (forall st, Inv st -> Inv (with_usage (fst st), snd st)) ->
  (forall a st, Inv st -> Ascii.eqb (snd st) NUL = true ->
                Inv (parse_flag a st)) ->
  forall fuel st arg st',
    Inv st ->
    starts_with_dash arg = true \/ Ascii.eqb (snd st) NUL = false ->
    parse_arg_in stod fuel v st arg = Returns st' ->
    Inv st'.
Proof.
  intros Hvalue Husage Hflag.
  induction fuel as [|fuel IH]; intros st arg st' Hinv Hcase Hrun;
    [discriminate|].
  cbn [parse_arg_in] in Hrun.
  destruct (starts_with_dash arg) eqn:Hdash; cbn [negb] in Hrun.
  - destruct (prefix "--" arg && String.eqb "--help" arg).
    + apply Returns_inj in Hrun. subst st'. apply Husage. exact Hinv.
    + destruct (starts_with_dash_inv arg Hdash) as [s ->].
      rewrite substring_tail in Hrun. clear Hcase Hdash.
      revert st Hinv Hrun. induction s as [|a s IHs]; intros st Hinv Hrun.
      * apply Returns_inj in Hrun. subst st'. exact Hinv.
      * cbn [scan_flags] in Hrun.
        destruct (Ascii.eqb (snd st) NUL) eqn:Hp; cbn [negb] in Hrun.
        -- apply (IHs (parse_flag a st)); [|exact Hrun].
           apply Hflag; assumption.
        -- apply (IH st (String a s) st' Hinv); [right; exact Hp|exact Hrun].
  - destruct Hcase as [Hc | Hp]; [discriminate|].
    apply and_then_Returns in Hrun. destruct Hrun as [config' [Hv Hr]].
    apply Returns_inj in Hr. subst st'.
    apply (Hvalue st arg config' Hinv Hp Hv).
Qed.

Lemma strtok_empty : strtok EmptyString = None.
Proof. reflexivity. Qed.

(** No call that returns has changed the font ratio: [strcpy] needs one
    byte more than either buffer has, except for the empty value in
    [part_003], which holds no ratio. *)
Lemma parse_ratio_returns (config config' : CommandLine D) (arg : string) :
  parse_ratio stod v config arg = Returns config' ->
  config' = config /\ arg = EmptyString /\ v = part_003.
Proof.
  unfold parse_ratio.
  destruct (_ <=? _)%nat eqn:Hfits; [|discriminate].
  apply Nat.leb_le in Hfits.
  destruct v; cbn [ratio_buffer_size] in Hfits; [lia|].
  destruct arg as [|c s]; [|cbn [String.length] in Hfits; lia].
  rewrite strtok_empty. intros Hr. apply Returns_inj in Hr.
  subst config'. repeat split.
Qed.

Lemma parse_value_font_ratio (p : ascii) (config config' : CommandLine D)
    (arg : string) :
  parse_value stod v p config arg = Returns config' ->
  font_ratio (settings config') = font_ratio (settings config).
Proof.
  apply parse_value_cases.
  - destruct (stoi arg); cbn [and_then]; intros Hr; try discriminate.
    apply Returns_inj in Hr. subst config'. reflexivity.
  - destruct (stoi arg); cbn [and_then]; intros Hr; try discriminate.
    apply Returns_inj in Hr. subst config'. reflexivity.
  - destruct (stoull arg); cbn [and_then]; intros Hr; try discriminate.
    apply Returns_inj in Hr. subst config'. reflexivity.
  - intros Hr. apply Returns_inj in Hr. subst config'. reflexivity.
  - intros Hr. apply parse_ratio_returns in Hr. destruct Hr as [-> _].
    reflexivity.
  - intros _ Hr. apply Returns_inj in Hr. subst config'. reflexivity.
Qed.

Lemma parse_flag_font_ratio (a : ascii) (st : CommandLine D * ascii) :
  font_ratio (settings (fst (parse_flag a st)))
  = font_ratio (settings (fst st)).
Proof. destruct st as [config p]. apply parse_flag_cases; reflexivity. Qed.

Lemma parse_arg_font_ratio (st st' : CommandLine D * ascii) (arg : string) :
  parse_arg stod v st arg = Returns st' ->
  font_ratio (settings (fst st')) = font_ratio (settings (fst st)).
Proof.
  unfold parse_arg. intros Hrun.
  destruct (starts_with_dash arg) eqn:Hdash.
  - revert Hrun.
    apply (parse_arg_in_invariant
             (fun s => font_ratio (settings (fst s))
                       = font_ratio (settings (fst st)))).
    + intros s a c Hs _ Hv. cbn [fst].
      rewrite (parse_value_font_ratio _ _ _ _ Hv). exact Hs.
    + intros s Hs. exact Hs.
    + intros a s Hs _. rewrite parse_flag_font_ratio. exact Hs.
    + reflexivity.
    + left. exact Hdash.
  - cbn [parse_arg_in] in Hrun. rewrite Hdash in Hrun. cbn [negb] in Hrun.
    apply and_then_Returns in Hrun. destruct Hrun as [config' [Hv Hr]].
    apply Returns_inj in Hr. subst st'. cbn [fst].
    apply (parse_value_font_ratio _ _ _ _ Hv).
Qed.

Lemma parse_args_font_ratio (argv : list string) :
  forall st st',
    parse_args stod v st argv = Returns st' ->
    font_ratio (settings (fst st')) = font_ratio (settings (fst st)).
Proof.
  induction argv as [|arg argv IH]; intros st st' Hrun.
  - apply Returns_inj in Hrun. subst st'. reflexivity.
  - cbn [parse_args] in Hrun. apply and_then_Returns in Hrun.
    destruct Hrun as [st1 [H1 Hrest]].
    rewrite (IH _ _ Hrest). apply (parse_arg_font_ratio _ _ _ H1).
Qed.

(** *** Arguments that start with a dash never name the image *)

Lemma parse_value_input_path (p : ascii) (config config' : CommandLine D)
    (arg : string) :
  takes_value p = true ->
  parse_value stod v p config arg = Returns config' ->
  input_path config' = input_path config.
Proof.
  intros Hp. apply parse_value_cases.
  - destruct (stoi arg); cbn [and_then]; intros Hr; try discriminate.
    apply Returns_inj in Hr. subst config'. reflexivity.
  - destruct (stoi arg); cbn [and_then]; intros Hr; try discriminate.
    apply Returns_inj in Hr. subst config'. reflexivity.
  - destruct (stoull arg); cbn [and_then]; intros Hr; try discriminate.
    apply Returns_inj in Hr. subst config'. reflexivity.
  - intros Hr. apply Returns_inj in Hr. subst config'. reflexivity.
  - intros Hr. apply parse_ratio_returns in Hr. destruct Hr as [-> _].
    reflexivity.
  - congruence.
Qed.

Lemma parse_arg_dash_input_path (st st' : CommandLine D * ascii)
    (arg : string) :
  starts_with_dash arg = true ->
  waits_or_idle (snd st) ->
  parse_arg stod v st arg = Returns st' ->
  input_path (fst st') = input_path (fst st) /\ waits_or_idle (snd st').
Proof.
  unfold parse_arg. intros Hdash Hw.
  apply (parse_arg_in_invariant
           (fun s => input_path (fst s) = input_path (fst st)
                     /\ waits_or_idle (snd s))).
  - intros s a c [Hs Hws] Hp Hv. cbn [fst snd]. split; [|left; reflexivity].
    assert (Ht : takes_value (snd s) = true).
    { destruct Hws as [Hn | Ht]; [|exact Ht].
      rewrite Hn in Hp. discriminate. }
    rewrite <- Hs. apply (parse_value_input_path _ _ _ _ Ht Hv).
  - intros s Hs. exact Hs.
  - intros a [c p] [Hs Hws] Hp. cbn [fst snd] in *.
    apply parse_flag_cases; cbn [fst snd]; try (split; [exact Hs | exact Hws]).
    intros Ha. split; [exact Hs | right; exact Ha].
  - split; [reflexivity | exact Hw].
  - left. exact Hdash.
Qed.

Lemma parse_args_dash_input_path (argv : list string) :
  Forall (fun arg => starts_with_dash arg = true) argv ->
  forall st st',
    waits_or_idle (snd st) ->
    parse_args stod v st argv = Returns st' ->
    input_path (fst st') = input_path (fst st).
Proof.
  induction 1 as [|arg argv Hdash Hrest IH]; intros st st' Hw Hrun.
  - apply Returns_inj in Hrun. subst st'. reflexivity.
  - cbn [parse_args] in Hrun. apply and_then_Returns in Hrun.
    destruct Hrun as [st1 [H1 Hrun]].
    destruct (parse_arg_dash_input_path _ _ _ Hdash Hw H1) as [Hp Hw1].
    rewrite (IH _ _ Hw1 Hrun). exact Hp.
Qed.
End ParserFacts.

Section ParserFlags.
Context {D : Type} `{Double D}.
Variable stod : string -> option D.
Variable v : variant.

Lemma flags_kept_refl (c : CommandLine D) : flags_kept c c.
Proof. unfold flags_kept. tauto. Qed.

Lemma flags_kept_trans (c1 c2 c3 : CommandLine D) :
  flags_kept c1 c2 -> flags_kept c2 c3 -> flags_kept c1 c3.
Proof. unfold flags_kept. tauto. Qed.

Lemma parse_value_flags (p : ascii) (config config' : CommandLine D)
    (arg : string) :
  parse_value stod v p config arg = Returns config' ->
  flags_kept config config'.
Proof.
  apply parse_value_cases.
  - destruct (stoi arg); cbn [and_then]; intros Hr; try discriminate.
    apply Returns_inj in Hr. subst config'. unfold flags_kept. cbn. tauto.
  - destruct (stoi arg); cbn [and_then]; intros Hr; try discriminate.
    apply Returns_inj in Hr. subst config'. unfold flags_kept. cbn. tauto.
  - destruct (stoull arg); cbn [and_then]; intros Hr; try discriminate.
    apply Returns_inj in Hr. subst config'. unfold flags_kept. cbn. tauto.
  - intros Hr. apply Returns_inj in Hr. subst config'.
    unfold flags_kept. cbn. tauto.
  - intros Hr. apply parse_ratio_returns in Hr. destruct Hr as [-> _].
    apply flags_kept_refl.
  - intros _ Hr. apply Returns_inj in Hr. subst config'.
    unfold flags_kept. cbn. tauto.
Qed.

Lemma parse_flag_flags (a : ascii) (st : CommandLine D * ascii) :
  flags_kept (fst st) (fst (parse_flag a st)).
Proof.
  destruct st as [config p].
  apply parse_flag_cases; intros; unfold flags_kept; cbn; tauto.
Qed.

Lemma parse_arg_flags (st st' : CommandLine D * ascii) (arg : string) :
  parse_arg stod v st arg = Returns st' ->
  flags_kept (fst st) (fst st').
Proof.
  unfold parse_arg. intros Hrun.
  destruct (starts_with_dash arg) eqn:Hdash.
  - revert Hrun.
    apply (parse_arg_in_invariant stod v
             (fun s => flags_kept (fst st) (fst s))).
    + intros s a c Hs _ Hv. cbn [fst].
      apply (flags_kept_trans _ _ _ Hs (parse_value_flags _ _ _ _ Hv)).
    + intros s Hs. cbn [fst]. apply (flags_kept_trans _ _ _ Hs).
      unfold flags_kept. cbn. tauto.
    + intros a s Hs _. apply (flags_kept_trans _ _ _ Hs).
      apply parse_flag_flags.
    + apply flags_kept_refl.
    + left. exact Hdash.
  - cbn [parse_arg_in] in Hrun. rewrite Hdash in Hrun. cbn [negb] in Hrun.
    apply and_then_Returns in Hrun. destruct Hrun as [config' [Hv Hr]].
    apply Returns_inj in Hr. subst st'. cbn [fst].
    apply (parse_value_flags _ _ _ _ Hv).
Qed.

Lemma not_help (c : ascii) (value : string) :
  takes_value c = true ->
  prefix "--" (String "-" (String c value)) = false.
Proof.
  intros Hc. cbn [prefix].
  destruct (ascii_dec "-" "-") as [_|Hne]; [|congruence].
  destruct (ascii_dec "-" c) as [<-|_]; [discriminate | reflexivity].
Qed.
End ParserFlags.

(** X13. [parse_arg] terminates: every recursive call is on a strictly
    shorter suffix of the argument, so the call never exhausts a budget
    larger than the length of its argument, and every such budget gives the
    same result. *)
Theorem parse_arg_terminates {D : Type} `{Double D}
    (stod : string -> option D) (v : variant)
    (st : CommandLine D * ascii) (arg : string) :
  parse_arg stod v st arg <> Unfinished
  /\ forall fuel : nat,
       (String.length arg < fuel)%nat ->
       parse_arg_in stod fuel v st arg = parse_arg stod v st arg.
Proof.
  unfold parse_arg. split.
  - apply parse_arg_in_finishes. lia.
  - intros fuel Hfuel. apply parse_arg_in_enough; lia.
Qed.

(** X14. A value attached to its option is read like a separate argument:
    for the options W, H, n, o and r and a non-empty value, [-cVALUE] is
    parsed exactly as [-c] followed by [VALUE]. *)
Theorem attached_value_is_separate_value {D : Type} `{Double D}
    (stod : string -> option D) (v : variant) (config : CommandLine D)
    (c : ascii) (value : string) :
  takes_value c = true ->
  value <> EmptyString ->
  parse_arg stod v (config, NUL) (String "-" (String c value))
  = (st <~ parse_arg stod v (config, NUL) (String "-" (String c EmptyString)) ;;
     parse_arg stod v st value).
Proof.
  intros Hc Hvalue.
  assert (Hflag : parse_flag c (config, NUL) = (config, c)).
  { destruct c as [[] [] [] [] [] [] [] []]; try discriminate Hc;
      reflexivity. }
  assert (Hfirst : parse_arg stod v (config, NUL)
                     (String "-" (String c EmptyString))
                   = Returns (config, c)).
  { unfold parse_arg. cbn [parse_arg_in starts_with_dash negb].
    rewrite (not_help c _ Hc). cbn [andb].
    rewrite substring_tail. cbn [scan_flags snd].
    change (Ascii.eqb NUL NUL) with true. cbn [negb].
    rewrite Hflag. reflexivity. }
  rewrite Hfirst. cbn [and_then].
  unfold parse_arg at 1. cbn [parse_arg_in starts_with_dash negb].
  rewrite (not_help c _ Hc). cbn [andb].
  rewrite substring_tail. cbn [scan_flags snd].
  change (Ascii.eqb NUL NUL) with true. cbn [negb].
  rewrite Hflag.
  destruct value as [|a s]; [congruence|].
  cbn [scan_flags snd]. rewrite (takes_value_not_NUL c Hc). cbn [negb].
  unfold parse_arg. apply parse_arg_in_enough; cbn [String.length]; lia.
Qed.

(** X15. While an option waits for its value, a leading dash of the next
    argument is skipped: [-ARG] is parsed as [ARG] (consequently [-W -5]
    sets 5 columns, and no negative number can be given).  The exceptions
    are the single dash and [--help]. *)
Theorem dash_before_value_is_dropped {D : Type} `{Double D}
    (stod : string -> option D) (v : variant) (config : CommandLine D)
    (p : ascii) (arg : string) :
  Ascii.eqb p NUL = false ->
  arg <> EmptyString ->
  arg <> "-help"%string ->
  parse_arg stod v (config, p) (String "-" arg)
  = parse_arg stod v (config, p) arg.
Proof.
  intros Hp Harg Hhelp. unfold parse_arg at 1.
  cbn [parse_arg_in starts_with_dash negb].
  assert (Hne : String.eqb "--help" (String "-" arg) = false).
  { apply String.eqb_neq. intros Heq. injection Heq as Heq.
    apply Hhelp. symmetry. exact Heq. }
  rewrite Hne, andb_false_r, substring_tail.
  destruct arg as [|a s]; [congruence|].
  cbn [scan_flags snd]. rewrite Hp. cbn [negb]. reflexivity.
Qed.

(** X16. The value of [-r] never fits its buffer: [strcpy] writes
    [arg.length() + 1] bytes into [arg.length()] bytes ([part_002]) or into
    a single [char] ([part_003]), so every ratio given writes past the end
    of the buffer; only the empty value in [part_003] fits. *)
Theorem ratio_value_overruns_buffer {D : Type} `{Double D}
    (stod : string -> option D) (v : variant) (config : CommandLine D)
    (arg : string) :
  starts_with_dash arg = false ->
  (v = part_003 -> arg <> EmptyString) ->
  parse_arg stod v (config, "r"%char) arg = Overruns.
Proof.
  intros Hdash Hne. unfold parse_arg. cbn [parse_arg_in].
  rewrite Hdash. cbn [negb fst snd parse_value]. unfold parse_ratio.
  replace (String.length arg + 1 <=? ratio_buffer_size v (String.length arg))%nat
    with false; [reflexivity|].
  symmetry. apply Nat.leb_gt. destruct v; cbn [ratio_buffer_size]; [lia|].
  destruct arg as [|c s]; [exfalso; apply Hne; reflexivity|].
  cbn [String.length]. lia.
Qed.


(** X18. A command line whose arguments all start with a dash names no
    image: the input path stays empty and [main] prints the usage text,
    also when a dashed argument is consumed as the value of an option. *)
Theorem dashed_arguments_give_usage {D : Type} `{Double D}
    (stod : string -> option D) (v : variant) (argv : list string)
    (res : CommandLine D) :
  Forall (fun arg => starts_with_dash arg = true) (List.tl argv) ->
  parse_command_line_args stod v argv = Returns res ->
  input_path res = EmptyString /\ shows_usage res = true.
Proof.
  intros Hdash. unfold parse_command_line_args.
  destruct (List.length argv <? 2)%nat.
  - intros Hr. apply Returns_inj in Hr. subst res. split; reflexivity.
  - intros Hr. apply and_then_Returns in Hr. destruct Hr as [st [Hst Hr]].
    apply Returns_inj in Hr. subst res.
    assert (Hpath : input_path (fst st) = EmptyString).
    { assert (Hidle : waits_or_idle
                        (snd (default_command_line (D := D), NUL)))
        by (left; reflexivity).
      rewrite (parse_args_dash_input_path stod v _ Hdash _ _ Hidle Hst).
      reflexivity. }
    split; [exact Hpath|]. unfold shows_usage. rewrite Hpath.
    apply orb_true_r.
Qed.

(** X19. No argument clears a flag: the usage flag and the flags set by
    [-i], [-p] and [-a] that are set before a sequence of arguments is
    parsed are set after it. *)
Theorem flags_are_never_cleared {D : Type} `{Double D}
    (stod : string -> option D) (v : variant) (argv : list string)
    (st st' : CommandLine D * ascii) :
  parse_args stod v st argv = Returns st' ->
  flags_kept (fst st) (fst st').
Proof.
  revert st st'. induction argv as [|arg argv IH]; intros st st' Hrun.
  - apply Returns_inj in Hrun. subst st'. apply flags_kept_refl.
  - cbn [parse_args] in Hrun. apply and_then_Returns in Hrun.
    destruct Hrun as [st1 [H1 Hrest]].
    apply (flags_kept_trans _ _ _ (parse_arg_flags stod v _ _ _ H1)).
    apply IH. exact Hrest.
Qed.

Lemma attached_value_is_separate_value_witness :
  parse_arg (fun _ : string => @None float) part_002
    (default_command_line, NUL) "-W80"
  = (st <~ parse_arg (fun _ : string => @None float) part_002
             (default_command_line, NUL) "-W" ;;
     parse_arg (fun _ : string => @None float) part_002 st "80").
Proof.
  apply (attached_value_is_separate_value (fun _ : string => @None float)
           part_002 default_command_line "W"%char "80").
  - reflexivity.
  - discriminate.
Defined.

Lemma dash_before_value_is_dropped_witness :
  parse_arg (fun _ : string => @None float) part_002
    (default_command_line, "W"%char) "-5"
  = parse_arg (fun _ : string => @None float) part_002
      (default_command_line, "W"%char) "5".
Proof.
  apply (dash_before_value_is_dropped (fun _ : string => @None float)
           part_002 default_command_line "W"%char "5").
  - reflexivity.
  - discriminate.
  - discriminate.
Defined.

Lemma ratio_value_overruns_buffer_witness :
  parse_arg (fun _ : string => @None float) part_002
    (default_command_line, "r"%char) "1:2"
  = Overruns.
Proof.
  apply (ratio_value_overruns_buffer (fun _ : string => @None float)
           part_002 default_command_line "1:2").
  - reflexivity.
  - intros Hv. discriminate Hv.
Defined.


Lemma dashed_arguments_give_usage_witness :
  input_path
    (with_settings (default_command_line (D := float))
       (set_cols (set_inverted default_config) 80))
  = EmptyString
  /\ shows_usage
       (with_settings (default_command_line (D := float))
          (set_cols (set_inverted default_config) 80))
     = true.
Proof.
  apply (dashed_arguments_give_usage (fun _ : string => @None float) part_002
           ["ascii"; "-i"; "-W"; "-80"]%string).
  - repeat constructor.
  - vm_compute. reflexivity.
Defined.

Lemma flags_are_never_cleared_witness :
  flags_kept
    (fst (with_usage (default_command_line (D := float)), NUL))
    (fst (with_input_path
            (with_settings (with_usage default_command_line)
               (set_inverted default_config)) "x.png", NUL)).
Proof.
  apply (flags_are_never_cleared (fun _ : string => @None float) part_002
           ["-i"; "x.png"]%string).
  vm_compute. reflexivity.
Defined.

(** ** The fixed-block variant *)

Lemma advance_small (x step : Z) :
  (0 <= x)%Z -> (0 <= step)%Z -> (x + step <= INT_MAX)%Z ->
  FixedBlock.advance x step = (x + step)%Z.
Proof.
  unfold INT_MAX. intros Hx Hs Hmax.
  unfold FixedBlock.advance, FixedBlock.int_of_size_t.
  rewrite (wrap_size_t_small x) by (rewrite SIZE_MAX_value; lia).
  rewrite wrap_size_t_small by (rewrite SIZE_MAX_value; lia).
  rewrite Z.mod_small by lia. lia.
Qed.

Lemma blocks_none (side step : Z) :
  (0 < step)%Z -> (- step < side <= 0)%Z -> FixedBlock.blocks side step = 0%Z.
Proof.
  intros Hs Hside. unfold FixedBlock.blocks. apply Z.div_small. lia.
Qed.

Lemma blocks_step (side step : Z) :
  (0 < step)%Z ->
  FixedBlock.blocks side step = (FixedBlock.blocks (side - step) step + 1)%Z.
Proof.
  intros Hs. unfold FixedBlock.blocks.
  replace (side + step - 1)%Z with (side - step + step - 1 + 1 * step)%Z
    by lia.
  apply Z.div_add. lia.
Qed.

Section FixedBlockShape.
Context {D : Type} `{Double D}.
Variable config : FixedBlock.configuration.
Variable pixels : list Color.
Variables width height : Z.

Hypothesis Hx : (0 < FixedBlock.x_thingy config)%Z.
Hypothesis Hy : (0 < FixedBlock.y_thingy config)%Z.
Hypothesis Hw : (width + FixedBlock.x_thingy config <= INT_MAX)%Z.
Hypothesis Hh : (height + FixedBlock.y_thingy config <= INT_MAX)%Z.

Lemma block_char_alphabet (fuel : nat) (x y : Z) (c : ascii) :
  FixedBlock.block_char (D := D) fuel config pixels width height x y = Done c ->
  ramp_or_space c.
Proof.
  unfold FixedBlock.block_char. intros Hc.
  apply bind_Done in Hc. destruct Hc as [L [_ Hc]].
  apply bind_Done in Hc. destruct Hc as [index [_ Hc]].
  destruct (DENSITY_size <=? index)%Z.
  - apply Done_inj in Hc. left. symmetry. exact Hc.
  - destruct (String.get (Z.to_nat index) DENSITY) as [c'|] eqn:Hget;
      cbn [of_option] in Hc; [|discriminate].
    apply Done_inj in Hc. subst c'. right.
    apply (get_is_member DENSITY (Z.to_nat index)). exact Hget.
Qed.

Lemma row_from_shape (fuel : nat) (y : Z) :
  forall n x line,
    (0 <= x < width + FixedBlock.x_thingy config)%Z ->
    FixedBlock.row_from (D := D) fuel n config pixels width height y x
    = Done line ->
    Z.of_nat (List.length line)
    = FixedBlock.blocks (width - x) (FixedBlock.x_thingy config)
    /\ Forall ramp_or_space line.
Proof.
  induction n as [|n IH]; intros x line Hrange Hrun; [discriminate|].
  cbn [FixedBlock.row_from] in Hrun.
  destruct (x <? width)%Z eqn:Hlt.
  - apply Z.ltb_lt in Hlt.
    apply bind_Done in Hrun. destruct Hrun as [c [Hc Hrun]].
    apply bind_Done in Hrun. destruct Hrun as [rest [Hrest Hrun]].
    apply Done_inj in Hrun. subst line.
    rewrite advance_small in Hrest by lia.
    assert (Hnext : (0 <= x + FixedBlock.x_thingy config
                     < width + FixedBlock.x_thingy config)%Z) by lia.
    destruct (IH _ _ Hnext Hrest) as [Hlen Hal].
    split.
    + rewrite (blocks_step (width - x)) by exact Hx.
      cbn [List.length]. rewrite Nat2Z.inj_succ, Hlen. unfold Z.succ.
      f_equal. f_equal. lia.
    + constructor; [apply (block_char_alphabet _ _ _ _ Hc) | exact Hal].
  - apply Z.ltb_ge in Hlt. apply Done_inj in Hrun. subst line.
    split; [|constructor].
    rewrite blocks_none by lia. reflexivity.
Qed.

Lemma rows_from_shape (fuel : nat) :
  forall n y text,
    (0 <= y < height + FixedBlock.y_thingy config)%Z ->
    (0 <= width)%Z ->
    FixedBlock.rows_from (D := D) fuel n config pixels width height y
    = Done text ->
    exists lines : list (list ascii),
      text = unlines lines
      /\ Z.of_nat (List.length lines)
         = FixedBlock.blocks (height - y) (FixedBlock.y_thingy config)
      /\ Forall (fun l => Z.of_nat (List.length l)
                          = FixedBlock.blocks width
                              (FixedBlock.x_thingy config)
                          /\ ~ In newline l) lines.
Proof.
  induction n as [|n IH]; intros y text Hrange Hw0 Hrun; [discriminate|].
  cbn [FixedBlock.rows_from] in Hrun.
  destruct (y <? height)%Z eqn:Hlt.
  - apply Z.ltb_lt in Hlt.
    apply bind_Done in Hrun. destruct Hrun as [line [Hline Hrun]].
    apply bind_Done in Hrun. destruct Hrun as [rest [Hrest Hrun]].
    apply Done_inj in Hrun. subst text.
    rewrite advance_small in Hrest by lia.
    assert (Hnext : (0 <= y + FixedBlock.y_thingy config
                     < height + FixedBlock.y_thingy config)%Z) by lia.
    destruct (IH _ _ Hnext Hw0 Hrest) as [lines [Htext [Hlen Hall]]].
    assert (Hzero : (0 <= 0 < width + FixedBlock.x_thingy config)%Z) by lia.
    destruct (row_from_shape _ _ _ _ _ Hzero Hline) as [Hl Hal].
    exists (line :: lines). split; [|split].
    + rewrite unlines_cons, Htext. reflexivity.
    + rewrite (blocks_step (height - y)) by exact Hy.
      cbn [List.length]. rewrite Nat2Z.inj_succ, Hlen. unfold Z.succ.
      f_equal. f_equal. lia.
    + constructor; [|exact Hall]. split.
      * rewrite Hl. f_equal. lia.
      * intros Hin. apply newline_not_ramp_or_space.
        rewrite Forall_forall in Hal. apply Hal. exact Hin.
  - apply Z.ltb_ge in Hlt. apply Done_inj in Hrun. subst text.
    exists []. split; [reflexivity|]. split; [|constructor].
    rewrite blocks_none by lia. reflexivity.
Qed.
End FixedBlockShape.

(** X20. The fixed-block variant, every arithmetic (IEEE doubles
    included): the loops of [main] run on integers, so a completed
    conversion of a W x H image has exactly ceil(H / y_thingy) lines of
    ceil(W / x_thingy) characters, each line ended by one newline. *)
Theorem fixed_block_text_shape {D : Type} `{Double D}
    (fuel : nat) (config : FixedBlock.configuration) (pixels : list Color)
    (width height : Z) (text : list ascii) :
  (0 < FixedBlock.x_thingy config)%Z ->
  (0 < FixedBlock.y_thingy config)%Z ->
  (0 <= width)%Z -> (0 <= height)%Z ->
  (width + FixedBlock.x_thingy config <= INT_MAX)%Z ->
  (height + FixedBlock.y_thingy config <= INT_MAX)%Z ->
  FixedBlock.conversion (D := D) fuel config pixels width height = Done text ->
  exists lines : list (list ascii),
    text = unlines lines
    /\ Z.of_nat (List.length lines)
       = FixedBlock.blocks height (FixedBlock.y_thingy config)
    /\ Forall (fun l => Z.of_nat (List.length l)
                        = FixedBlock.blocks width (FixedBlock.x_thingy config)
                        /\ ~ In newline l) lines.
Proof.
  intros Hx Hy Hw0 Hh0 Hw Hh Hrun. unfold FixedBlock.conversion in Hrun.
  assert (Hzero : (0 <= 0 < height + FixedBlock.y_thingy config)%Z) by lia.
  destruct (rows_from_shape config pixels width height Hx Hy Hw Hh
              fuel fuel 0 text Hzero Hw0 Hrun)
    as [lines [Htext [Hlen Hall]]].
  exists lines. split; [exact Htext|]. split; [|exact Hall].
  rewrite Hlen. f_equal. lia.
Qed.

Lemma fixed_block_text_shape_witness :
  exists lines : list (list ascii),
    unlines [repeat "@"%char 3; repeat "@"%char 3; repeat "@"%char 3]
    = unlines lines
    /\ Z.of_nat (List.length lines)
       = FixedBlock.blocks 5 (FixedBlock.y_thingy FixedBlock.default)
    /\ Forall (fun l => Z.of_nat (List.length l)
                        = FixedBlock.blocks 3
                            (FixedBlock.x_thingy FixedBlock.default)
                        /\ ~ In newline l) lines.
Proof.
  apply (fixed_block_text_shape (D := float) 10 FixedBlock.default
           (solid white 3 5) 3 5).
  - reflexivity.
  - reflexivity.
  - lia.
  - lia.
  - vm_compute. discriminate.
  - vm_compute. discriminate.
  - vm_compute. reflexivity.
Defined.

Lemma to_int_ok (z : Z) :
  (INT_MIN <= z <= INT_MAX)%Z -> FixedBlock.to_int z = Done z.
Proof.
  intros Hz. unfold FixedBlock.to_int.
  replace ((INT_MIN <=? z)%Z && (z <=? INT_MAX)%Z) with true; [reflexivity|].
  symmetry. apply andb_true_intro. split; apply Z.leb_le; lia.
Qed.

Lemma INT_bounds : (INT_MIN < 0 < INT_MAX)%Z /\ (INT_MAX < SIZE_MAX)%Z.
Proof. vm_compute. repeat split. Qed.

Lemma Rsum_app (l1 l2 : list R) :
  Rsum (l1 ++ l2) = (Rsum l1 + Rsum l2)%R.
Proof.
  unfold Rsum. induction l1 as [|a l1 IH]; cbn [app fold_right]; [ring|].
  rewrite IH. ring.
Qed.

Lemma Rsum_unit {A : Type} (f : A -> R) (l : list A) :
  (forall a, In a l -> (0 <= f a <= 1)%R) ->
  (0 <= Rsum (List.map f l) <= INR (List.length l))%R.
Proof.
  unfold Rsum. induction l as [|a l IH]; intros Hf.
  - simpl. lra.
  - change (List.length (a :: l)) with (S (List.length l)).
    rewrite S_INR. cbn [List.map fold_right].
    pose proof (Hf a (or_introl eq_refl)).
    assert (0 <= fold_right Rplus 0 (List.map f l) <= INR (List.length l))%R
      by (apply IH; intros b Hb; apply Hf; right; exact Hb).
    lra.
Qed.

Section FixedBlockExact.
Local Open Scope R_scope.

Variable config : FixedBlock.configuration.
Variable pixels : list Color.
Variables width height : Z.

Hypothesis Hxt : (0 < FixedBlock.x_thingy config)%Z.
Hypothesis Hyt : (0 < FixedBlock.y_thingy config)%Z.
Hypothesis Hwidth : (0 < width)%Z.
Hypothesis Hheight : (0 < height)%Z.
Hypothesis Hsize : (width * height <= INT_MAX)%Z.
Hypothesis Hlen : Z.of_nat (List.length pixels) = (width * height)%Z.

Let lum (p : Z * Z) : R :=
  FixedBlock.pixel_luma config (pixel_at pixels width p).

Lemma sides_fit : (width <= INT_MAX)%Z /\ (height <= INT_MAX)%Z.
Proof. split; nia. Qed.

Lemma read_at_exact (x y : Z) :
  (0 <= x < width)%Z -> (0 <= y < height)%Z ->
  FixedBlock.read_at pixels width x y = Done (pixel_at pixels width (x, y)).
Proof.
  intros Hx Hy. pose proof INT_bounds as [Hb _].
  assert (Hidx : (0 <= x + y * width < width * height)%Z) by nia.
  unfold FixedBlock.read_at.
  rewrite to_int_ok by nia. cbn [bind].
  rewrite to_int_ok by lia. cbn [bind].
  replace (x + y * width <? 0)%Z with false
    by (symmetry; apply Z.ltb_ge; lia).
  unfold read_pixel. rewrite (nth_error_nth' pixels black) by lia.
  reflexivity.
Qed.

Section Block.
Variables startx starty : Z.
Hypothesis Hsx : (0 <= startx < width)%Z.
Hypothesis Hsy : (0 <= starty < height)%Z.

Let xend : Z := Z.min width (startx + FixedBlock.x_thingy config).
Let yend : Z := Z.min height (starty + FixedBlock.y_thingy config).
Let keep (p : Z * Z) : bool := negb (same_pixel (startx, starty) p).

Lemma block_x_exact (y : Z) :
  (0 <= y < height)%Z ->
  forall (m : nat) (x : Z) (fuel : nat) (st : R * R),
    (startx <= x)%Z -> (x + Z.of_nat m = xend)%Z -> (m < fuel)%nat ->
    FixedBlock.block_x fuel config pixels width startx starty y x st
    = Done (fst st
            + Rsum (List.map lum (List.map (fun x => (x, y)) (Zrange x m))),
            snd st
            + INR (List.length
                     (List.filter keep
                        (List.map (fun x => (x, y)) (Zrange x m))))).
Proof.
  intros Hy. pose proof INT_bounds as [Hb Hb']. pose proof sides_fit as [Hw Hh].
  induction m as [|m IH]; intros x fuel [a n] Hx Hend Hfuel;
    (destruct fuel as [|fuel]; [lia|]); cbn [FixedBlock.block_x].
  - cbn [Zrange List.map List.filter List.length Rsum fold_right fst snd].
    unfold Rsum. cbn [fold_right INR].
    replace (a + 0) with a by ring. replace (n + 0) with n by ring.
    destruct (x <? width)%Z eqn:Hlt; [|reflexivity].
    apply Z.ltb_lt in Hlt. rewrite to_int_ok by lia. cbn [bind].
    rewrite wrap_size_t_small by lia.
    replace (x - startx <? FixedBlock.x_thingy config)%Z with false
      by (symmetry; apply Z.ltb_ge; unfold xend in Hend; lia).
    reflexivity.
  - assert (Hlt : (x < width)%Z) by (unfold xend in Hend; lia).
    replace (x <? width)%Z with true by (symmetry; apply Z.ltb_lt; lia).
    rewrite to_int_ok by lia. cbn [bind].
    rewrite wrap_size_t_small by lia.
    replace (x - startx <? FixedBlock.x_thingy config)%Z with true
      by (symmetry; apply Z.ltb_lt; unfold xend in Hend; lia).
    rewrite read_at_exact by lia. cbn [bind].
    rewrite to_int_ok by lia. cbn [bind].
    rewrite IH by lia.
    cbn [fst snd Zrange List.map List.filter]. exact_ops.
    unfold Rsum. cbn [fold_right]. fold (lum (x, y)).
    f_equal. f_equal; [ring|].
    unfold keep at 2. unfold same_pixel. cbn [fst snd].
    rewrite (Z.eqb_sym startx x), (Z.eqb_sym starty y).
    destruct (x =? startx)%Z, (y =? starty)%Z; cbn [negb orb andb];
      try (change (List.length (?p :: ?l)) with (S (List.length l)));
      rewrite ?S_INR; ring.
Qed.

Let row (y : Z) : list (Z * Z) :=
  List.map (fun x => (x, y)) (Zrange startx (Z.to_nat (xend - startx))).

Lemma block_y_exact (fuel : nat) :
  (Z.to_nat (xend - startx) < fuel)%nat ->
  forall (m : nat) (y : Z) (n : nat) (st : R * R),
    (starty <= y)%Z -> (y + Z.of_nat m = yend)%Z -> (m < n)%nat ->
    FixedBlock.block_y fuel n config pixels width height startx starty y st
    = Done (fst st + Rsum (List.map lum (flat_map row (Zrange y m))),
            snd st
            + INR (List.length
                     (List.filter keep (flat_map row (Zrange y m))))).
Proof.
  intros Hfuel. pose proof INT_bounds as [Hb Hb']. pose proof sides_fit as [Hw Hh].
  induction m as [|m IH]; intros y n [a c] Hy Hend Hn;
    (destruct n as [|n]; [lia|]); cbn [FixedBlock.block_y].
  - cbn [Zrange flat_map List.map List.filter List.length fst snd].
    unfold Rsum. cbn [fold_right INR].
    replace (a + 0) with a by ring. replace (c + 0) with c by ring.
    destruct (y <? height)%Z eqn:Hlt; [|reflexivity].
    apply Z.ltb_lt in Hlt. rewrite to_int_ok by lia. cbn [bind].
    rewrite wrap_size_t_small by lia.
    replace (y - starty <? FixedBlock.y_thingy config)%Z with false
      by (symmetry; apply Z.ltb_ge; unfold yend in Hend; lia).
    reflexivity.
  - assert (Hlt : (y < height)%Z) by (unfold yend in Hend; lia).
    replace (y <? height)%Z with true by (symmetry; apply Z.ltb_lt; lia).
    rewrite to_int_ok by lia. cbn [bind].
    rewrite wrap_size_t_small by lia.
    replace (y - starty <? FixedBlock.y_thingy config)%Z with true
      by (symmetry; apply Z.ltb_lt; unfold yend in Hend; lia).
    rewrite (block_x_exact y ltac:(lia) (Z.to_nat (xend - startx)) startx fuel)
      by (unfold xend in *; lia).
    cbn [bind]. rewrite to_int_ok by lia. cbn [bind].
    rewrite IH by lia.
    cbn [fst snd Zrange flat_map]. fold (row y).
    rewrite map_app, Rsum_app, filter_app, length_app, plus_INR.
    f_equal. f_equal; ring.
Qed.

Lemma block_pixels_rows :
  FixedBlock.block_pixels config width height startx starty
  = flat_map row (Zrange starty (Z.to_nat (yend - starty))).
Proof. reflexivity. Qed.

Lemma block_in_image (p : Z * Z) :
  In p (FixedBlock.block_pixels config width height startx starty) ->
  (0 <= fst p < width)%Z /\ (0 <= snd p < height)%Z.
Proof.
  rewrite block_pixels_rows. intros Hin.
  apply in_flat_map in Hin. destruct Hin as [y [Hy Hin]].
  apply in_map_iff in Hin. destruct Hin as [x [<- Hx]].
  apply Zrange_In in Hy. apply Zrange_In in Hx.
  unfold xend, yend in *. cbn [fst snd]. lia.
Qed.

(** The start pixel is in its block exactly once, so the denominator ends
    as the number of pixels. *)
Lemma block_denominator :
  (1 + INR (List.length
              (List.filter keep
                 (FixedBlock.block_pixels config width height startx starty)))
   = INR (List.length
            (FixedBlock.block_pixels config width height startx starty)))
  /\ 1 <= INR (List.length
                 (FixedBlock.block_pixels config width height startx starty)).
Proof.
  set (cells := FixedBlock.block_pixels config width height startx starty).
  assert (Hone : occurrences (startx, starty) cells = 1%nat).
  { unfold cells, FixedBlock.block_pixels.
    rewrite occurrences_product, !Zcount_Zrange.
    replace ((startx <=? startx)%Z && _) with true; [|symmetry].
    - replace ((starty <=? starty)%Z && _) with true; [reflexivity|symmetry].
      apply andb_true_intro. split; [apply Z.leb_le | apply Z.ltb_lt]; lia.
    - apply andb_true_intro. split; [apply Z.leb_le | apply Z.ltb_lt]; lia. }
  pose proof (filter_length (same_pixel (startx, starty)) cells) as Hsplit.
  unfold occurrences in Hone. fold keep in Hsplit.
  assert (Hk : (List.length cells
                = 1 + List.length (List.filter keep cells))%nat).
  { lia. }
  rewrite Hk, plus_INR. cbn [INR].
  pose proof (pos_INR (List.length (List.filter keep cells))). split; lra.
Qed.

Lemma average_luma_exact (fuel : nat) :
  (Z.to_nat width < fuel)%nat -> (Z.to_nat height < fuel)%nat ->
  FixedBlock.average_luma fuel config pixels width height startx starty
  = Done (Rsum (List.map lum
                  (FixedBlock.block_pixels config width height startx starty))
          / INR (List.length
                   (FixedBlock.block_pixels config width height
                      startx starty))).
Proof.
  intros Hfw Hfh. unfold FixedBlock.average_luma.
  rewrite (block_y_exact fuel ltac:(unfold xend; lia)
             (Z.to_nat (yend - starty)) starty fuel)
    by (unfold yend; lia).
  cbn [bind fst snd]. rewrite <- block_pixels_rows. exact_ops.
  destruct block_denominator as [Hden _]. rewrite Hden. f_equal.
  f_equal. ring.
Qed.
End Block.

Hypothesis Hok : Forall Color_ok pixels.

Lemma fixed_block_pixel_luma_unit (c : Color) :
  Color_ok c -> 0 <= FixedBlock.pixel_luma config c <= 1.
Proof.
  intros Hc. unfold FixedBlock.pixel_luma.
  destruct (FixedBlock.alt config); [apply perceived_luma_fast_unit; exact Hc|].
  destruct (FixedBlock.perceived config);
    [apply perceived_luma_unit | apply luma_unit]; exact Hc.
Qed.

Lemma pixel_at_ok (p : Z * Z) : Color_ok (pixel_at pixels width p).
Proof.
  unfold pixel_at.
  destruct (nth_in_or_default (Z.to_nat (fst p + snd p * width)) pixels black)
    as [Hin | ->].
  - rewrite Forall_forall in Hok. apply Hok. exact Hin.
  - unfold Color_ok, uint8. simpl. lia.
Qed.

Lemma block_char_defined (fuel : nat) (x y : Z) :
  (0 <= x < width)%Z -> (0 <= y < height)%Z ->
  (Z.to_nat width < fuel)%nat -> (Z.to_nat height < fuel)%nat ->
  exists c : ascii,
    FixedBlock.block_char fuel config pixels width height x y = Done c.
Proof.
  intros Hx Hy Hfw Hfh. unfold FixedBlock.block_char.
  rewrite (average_luma_exact x y Hx Hy fuel Hfw Hfh). cbn [bind].
  set (cells := FixedBlock.block_pixels config width height x y).
  destruct (block_denominator x y Hx Hy) as [_ Hcount]. fold cells in Hcount.
  assert (Hsum : 0 <= Rsum (List.map lum cells) <= INR (List.length cells)).
  { apply Rsum_unit. intros p _. apply fixed_block_pixel_luma_unit.
    apply pixel_at_ok. }
  set (L := Rsum (List.map lum cells) / INR (List.length cells)).
  assert (HL : 0 <= L <= 1).
  { unfold L. split.
    - apply Rmult_le_pos; [lra|]. apply Rlt_le, Rinv_0_lt_compat. lra.
    - apply (Rmult_le_reg_r (INR (List.length cells))); [lra|].
      unfold Rdiv. rewrite Rmult_assoc, Rinv_l by lra. lra. }
  exact_ops.
  assert (HL' : 0 <= (if negb (FixedBlock.inverted config) then 1 - L else L)
                <= 1)
    by (destruct (negb (FixedBlock.inverted config)); lra).
  destruct (scaled_index_exact
              (wrap_size_t (DENSITY_size + FixedBlock.num_spaces config))
              _ (wrap_size_t_range _) HL') as [Hidx Hrange].
  rewrite Hidx. cbn [bind].
  destruct (DENSITY_size <=? _)%Z eqn:Hbig; [eexists; reflexivity|].
  apply Z.leb_gt in Hbig. rewrite DENSITY_get by lia.
  eexists. reflexivity.
Qed.

Hypothesis Hw : (width + FixedBlock.x_thingy config <= INT_MAX)%Z.
Hypothesis Hh : (height + FixedBlock.y_thingy config <= INT_MAX)%Z.

Lemma row_from_total (fuel : nat) (y : Z) :
  (0 <= y < height)%Z ->
  (Z.to_nat width < fuel)%nat -> (Z.to_nat height < fuel)%nat ->
  forall (m : nat) (x : Z) (n : nat),
    (0 <= x)%Z ->
    (width - x <= Z.of_nat m * FixedBlock.x_thingy config)%Z ->
    (m < n)%nat ->
    exists line : list ascii,
      FixedBlock.row_from fuel n config pixels width height y x = Done line.
Proof.
  intros Hy Hfw Hfh. induction m as [|m IH]; intros x n Hx Hleft Hn;
    (destruct n as [|n]; [lia|]); cbn [FixedBlock.row_from].
  - replace (x <? width)%Z with false by (symmetry; apply Z.ltb_ge; lia).
    eexists. reflexivity.
  - destruct (x <? width)%Z eqn:Hlt; [|eexists; reflexivity].
    apply Z.ltb_lt in Hlt.
    destruct (block_char_defined fuel x y ltac:(lia) Hy Hfw Hfh) as [c Hc].
    rewrite Hc. cbn [bind]. rewrite advance_small by lia.
    destruct (IH (x + FixedBlock.x_thingy config)%Z n) as [rest Hrest];
      [lia | lia | lia |].
    rewrite Hrest. cbn [bind]. eexists. reflexivity.
Qed.

Lemma rows_from_total (fuel : nat) :
  (Z.to_nat width < fuel)%nat -> (Z.to_nat height < fuel)%nat ->
  forall (m : nat) (y : Z) (n : nat),
    (0 <= y)%Z ->
    (height - y <= Z.of_nat m * FixedBlock.y_thingy config)%Z ->
    (m < n)%nat ->
    exists text : list ascii,
      FixedBlock.rows_from fuel n config pixels width height y = Done text.
Proof.
  intros Hfw Hfh. induction m as [|m IH]; intros y n Hy Hleft Hn;
    (destruct n as [|n]; [lia|]); cbn [FixedBlock.rows_from].
  - replace (y <? height)%Z with false by (symmetry; apply Z.ltb_ge; lia).
    eexists. reflexivity.
  - destruct (y <? height)%Z eqn:Hlt; [|eexists; reflexivity].
    apply Z.ltb_lt in Hlt.
    destruct (row_from_total fuel y ltac:(lia) Hfw Hfh (Z.to_nat width) 0 fuel)
      as [line Hline]; [lia | nia | lia |].
    rewrite Hline. cbn [bind]. rewrite advance_small by lia.
    destruct (IH (y + FixedBlock.y_thingy config)%Z n) as [rest Hrest];
      [lia | lia | lia |].
    rewrite Hrest. cbn [bind]. eexists. reflexivity.
Qed.
End FixedBlockExact.





(** *** The command line of the fixed-block variant *)

Lemma scan_chars_flag (c : ascii) (s : string)
    (res : FixedBlock.configuration) (next : option string) :
  existsb (Ascii.eqb c) (list_ascii_of_string "-hno") = false ->
  exists res1,
    FixedBlock.scan_chars res (String c s) next
    = FixedBlock.scan_chars res1 s next
    /\ FixedBlock.output_path res1 = FixedBlock.output_path res.
Proof.
  destruct c as [[] [] [] [] [] [] [] []]; try discriminate; intros _;
    eexists; split; reflexivity.
Qed.

Lemma scan_chars_plain (next : option string) :
  forall (s : string) (res : FixedBlock.configuration),
    FixedBlock.lacks "-hno" s = true ->
    exists res',
      FixedBlock.scan_chars res s next
      = Returns (FixedBlock.Scanned res' false)
      /\ FixedBlock.output_path res' = FixedBlock.output_path res.
Proof.
  induction s as [|c s IH]; intros res Hlacks.
  - exists res. split; reflexivity.
  - unfold FixedBlock.lacks in Hlacks.
    cbn [list_ascii_of_string forallb] in Hlacks.
    apply andb_prop in Hlacks. destruct Hlacks as [Hc Hs].
    apply negb_true_iff in Hc.
    destruct (scan_chars_flag c s res next Hc) as [res1 [Hstep Hpath]].
    destruct (IH res1 Hs) as [res' [Hrun Hpath']].
    exists res'. split; [rewrite Hstep; exact Hrun|].
    rewrite Hpath'. exact Hpath.
Qed.

Lemma scan_chars_attached_path (res : FixedBlock.configuration)
    (s : string) (next : option string) :
  s <> EmptyString ->
  FixedBlock.scan_chars res (String "o" s) next
  = FixedBlock.scan_chars (FixedBlock.set_output_path res (Some s)) s next.
Proof. destruct s as [|a s]; [congruence | reflexivity]. Qed.

Lemma lacks_o (c : ascii) :
  existsb (Ascii.eqb c) (list_ascii_of_string "-hn") = false ->
  Ascii.eqb c "o" = false ->
  existsb (Ascii.eqb c) (list_ascii_of_string "-hno") = false.
Proof.
  cbn [list_ascii_of_string existsb]. intros H1 H2. rewrite H2.
  destruct (Ascii.eqb c "-"), (Ascii.eqb c "h"), (Ascii.eqb c "n");
    try discriminate H1; reflexivity.
Qed.

(** X23. In the fixed-block variant the loop over the characters of an
    argument goes on after an attached [-o] value, reading the value as
    options.  With no '-', 'h' or 'n' in the argument, the output path ends
    as what follows the last 'o' of the argument, and as the next argument
    of the command line when the argument ends in 'o' (so [-oout.txt] sets
    [ut.txt], and [-ofoo img.png] makes the image itself the output
    file). *)
Theorem output_path_follows_last_o
    (res : FixedBlock.configuration) (before after : string)
    (next : option string) :
  FixedBlock.lacks "-hn" before = true ->
  FixedBlock.lacks "-hno" after = true ->
  exists res',
    FixedBlock.scan_chars res (before ++ String "o" after) next
    = Returns (FixedBlock.Scanned res' (String.eqb after EmptyString))
    /\ FixedBlock.output_path res'
       = if String.eqb after EmptyString then next else Some after.
Proof.
  intros Hbefore Hafter. revert res.
  induction before as [|c before IH]; intros res.
  - cbn [String.append FixedBlock.scan_chars].
    destruct after as [|a after].
    + eexists. split; reflexivity.
    + destruct (scan_chars_plain next (String a after)
                  (FixedBlock.set_output_path res (Some (String a after)))
                  Hafter) as [res' [Hrun Hpath]].
      exists res'. split; [exact Hrun | exact Hpath].
  - unfold FixedBlock.lacks in Hbefore.
    cbn [list_ascii_of_string forallb] in Hbefore.
    apply andb_prop in Hbefore. destruct Hbefore as [Hc Hrest].
    apply negb_true_iff in Hc. specialize (IH Hrest).
    cbn [String.append].
    destruct (Ascii.eqb c "o") eqn:Ho.
    + apply Ascii.eqb_eq in Ho. subst c.
      rewrite scan_chars_attached_path by (destruct before; discriminate).
      apply IH.
    + destruct (scan_chars_flag c (before ++ String "o" after) res next
                  (lacks_o c Hc Ho)) as [res1 [Hstep _]].
      rewrite Hstep. apply IH.
Qed.

Lemma output_path_follows_last_o_witness :
  exists res',
    FixedBlock.scan_chars FixedBlock.default ("o" ++ String "o" "ut.txt")
      (Some "img.png"%string)
    = Returns (FixedBlock.Scanned res' (String.eqb "ut.txt" EmptyString))
    /\ FixedBlock.output_path res'
       = if String.eqb "ut.txt" EmptyString then Some "img.png"%string
         else Some "ut.txt"%string.
Proof.
  apply (output_path_follows_last_o FixedBlock.default "o" "ut.txt"
           (Some "img.png"%string)).
  - reflexivity.
  - reflexivity.
Defined.

(** X24. In the fixed-block variant every argument that starts with two
    dashes and has more characters ends the parse with [malformed] set, the
    rest of the command line unread: [--help] through its 'h', any other
    through the comparison with "help", which is taken when the strings
    differ. *)
Theorem double_dash_argument_is_malformed
    (res : FixedBlock.configuration) (s : string) (rest : list string) :
  s <> EmptyString ->
  FixedBlock.parse_from res false (String "-" (String "-" s) :: rest)
  = Returns (FixedBlock.set_malformed res).
Proof.
  intros Hs. cbn [FixedBlock.parse_from FixedBlock.scan_chars].
  destruct (String.eqb_spec s "help") as [-> | Hne].
  - reflexivity.
  - destruct (String.eqb_spec s EmptyString) as [He | _]; [contradiction|].
    reflexivity.
Qed.

Lemma double_dash_argument_is_malformed_witness :
  FixedBlock.parse_from FixedBlock.default false
    (String "-" (String "-" "version") :: ["-i"; "img.png"]%string)
  = Returns (FixedBlock.set_malformed FixedBlock.default).
Proof.
  apply (double_dash_argument_is_malformed FixedBlock.default "version"
           ["-i"; "img.png"]%string).
  discriminate.
Defined.
